(** * approve-pr-creation-from-issue: a shallow embedding of [src/index.js]

    The action checks that a pull request is backed by a maintainer's
    approval comment on an issue, and closes the pull request otherwise.

    Layout of the development:
    - [JS]      the string primitives of the host language the source uses;
    - [Regex]   the fragment of regular expressions the source builds, with
                a backtracking matcher and the meaning of patterns;
    - the reference extractor ([escapeRegExp], [extractCommentURL]);
    - [Eff]     a writer/exception monad recording log lines and requests;
    - the [PRApproval] class ([_request], [_closePR], [_isContributor],
      [check]) and the entry point [run];
    - the vocabulary of the statements and the scenarios;
    - the properties: the matcher, remediation, the contributor loop, the
      steps of [check], and the agreement of outcomes and effects. *)

From Stdlib Require Import String Ascii List Arith Bool Lia DecimalString.
Import ListNotations.
Open Scope string_scope.

(** ** Host-language strings

    JavaScript strings are modelled as [string]; the characters that matter
    to the program (logins, URLs, templates) are ASCII. *)
Module JS.

Fixpoint take (n : nat) (s : string) : string :=
  match n, s with
  | S n', String c s' => String c (take n' s')
  | _, _ => ""
  end.

Fixpoint drop (n : nat) (s : string) : string :=
  match n, s with
  | S n', String _ s' => drop n' s'
  | _, _ => s
  end.

Definition is_upper (c : ascii) : bool :=
  let n := nat_of_ascii c in Nat.leb 65 n && Nat.leb n 90.

Definition lower_char (c : ascii) : ascii :=
  if is_upper c then ascii_of_nat (nat_of_ascii c + 32) else c.

(** [String.prototype.toLowerCase], on ASCII letters.  It is the host's
    function on texts made of ASCII characters, which is what logins,
    owners and repository names are; the host also maps letters outside
    ASCII, which this model does not represent, so a statement about the
    lower-casing of a free text is made for ASCII texts ([is_ascii]). *)
Fixpoint toLowerCase (s : string) : string :=
  match s with
  | "" => ""
  | String c s' => String (lower_char c) (toLowerCase s')
  end.


(** [String.prototype.indexOf]: position of the first occurrence. *)
Fixpoint indexOf (pat s : string) : option nat :=
  if prefix pat s then Some 0
  else match s with
       | "" => None
       | String _ s' => option_map S (indexOf pat s')
       end.

(** [String.prototype.includes]. *)
Definition includes (s pat : string) : bool :=
  match indexOf pat s with Some _ => true | None => false end.

(** [String.prototype.split] with a non-empty string separator: cut at
    each occurrence, left to right.  The fuel is the length of the input,
    which every cut shortens. *)
Fixpoint split_from (fuel : nat) (sep s : string) : list string :=
  match fuel with
  | 0 => [s]
  | S fuel' =>
      match indexOf sep s with
      | None => [s]
      | Some i => take i s :: split_from fuel' sep (drop (i + String.length sep) s)
      end
  end.

Definition split (s sep : string) : list string :=
  split_from (S (String.length s)) sep s.

(** The replacement-string expansion of [String.prototype.replace]
    (GetSubstitution) for a string pattern, which has no capture groups:
    [$$] is a dollar sign, [$&] the matched text, [$`] the text before the
    match and [$'] the text after it; every other character, a dollar sign
    included, stands for itself. *)
Fixpoint getSubstitution (matched before after repl : string) : string :=
  match repl with
  | "" => ""
  | String c r =>
      if Ascii.eqb c "$" then
        match r with
        | String d r' =>
            if Ascii.eqb d "$" then String "$" (getSubstitution matched before after r')
            else if Ascii.eqb d "&" then matched ++ getSubstitution matched before after r'
            else if Ascii.eqb d "`" then before ++ getSubstitution matched before after r'
            else if Ascii.eqb d "'" then after ++ getSubstitution matched before after r'
            else String c (getSubstitution matched before after r)
        | "" => String c ""
        end
      else String c (getSubstitution matched before after r)
  end.

(** [String.prototype.replace] with a string pattern: the first occurrence
    only. *)
Definition replace (s pat repl : string) : string :=
  match indexOf pat s with
  | None => s
  | Some i =>
      let before := take i s in
      let after := drop (i + String.length pat) s in
      before ++ getSubstitution pat before after repl ++ after
  end.

(** Template-literal interpolation of a number. *)
Definition of_nat (n : nat) : string := NilEmpty.string_of_uint (Nat.to_uint n).

End JS.

(** ** Regular expressions

    The constructs that occur in [RE_COMMENT_URL] and in the expression
    [extractCommentURL] assembles: literal characters, the classes [[^/]]
    and [\d] under a greedy [+], capturing groups, and the anchors. *)
Module Regex.

Inductive cclass : Type :=
| NotSlash   (* [^/] *)
| Digit.     (* \d   *)

Definition is_digit (c : ascii) : bool :=
  let n := nat_of_ascii c in Nat.leb 48 n && Nat.leb n 57.

Definition in_class (k : cclass) (c : ascii) : bool :=
  match k with
  | NotSlash => negb (Ascii.eqb c "/")
  | Digit => is_digit c
  end.

Inductive regex : Type :=
| Eps
| Bol                        (* ^ *)
| Eol                        (* $ *)
| Chr (c : ascii)
| Plus (k : cclass)          (* k+ , greedy *)
| Seq (r1 r2 : regex)
| Group (r : regex).         (* ( r ) *)

(** A literal string as a pattern. *)
Fixpoint lit (s : string) : regex :=
  match s with
  | "" => Eps
  | String c s' => Seq (Chr c) (lit s')
  end.

(** Capturing groups are numbered by their opening parenthesis. *)
Fixpoint ngroups (r : regex) : nat :=
  match r with
  | Seq r1 r2 => ngroups r1 + ngroups r2
  | Group r' => S (ngroups r')
  | _ => 0
  end.

(** The match array: index 0 is the whole match, index [n] group [n]. *)
Definition captures := nat -> option string.

Definition no_caps : captures := fun _ => None.

Definition set_cap (n : nat) (v : string) (c : captures) : captures :=
  fun k => if Nat.eqb k n then Some v else c k.

(** A continuation receives the position reached, the rest of the input
    and the captures so far. *)
Definition cont (R : Type) := nat -> string -> captures -> option R.

(** [k+]: take one character of the class, then prefer taking more, and
    fall back to the continuation. *)
Fixpoint plus_loop {R} (k : cclass) (i : nat) (s : string) (caps : captures)
    (kont : cont R) : option R :=
  match s with
  | "" => None
  | String c s' =>
      if in_class k c then
        match plus_loop k (S i) s' caps kont with
        | Some r => Some r
        | None => kont (S i) s' caps
        end
      else None
  end.

(** The backtracking matcher: [g] is the number of the next group, [i] the
    index of [s] in the whole input. *)
Fixpoint m {R} (r : regex) (g i : nat) (s : string) (caps : captures)
    (kont : cont R) : option R :=
  match r with
  | Eps => kont i s caps
  | Bol => if Nat.eqb i 0 then kont i s caps else None
  | Eol => match s with "" => kont i s caps | _ => None end
  | Chr c =>
      match s with
      | String c' s' => if Ascii.eqb c c' then kont (S i) s' caps else None
      | "" => None
      end
  | Plus k => plus_loop k i s caps kont
  | Seq r1 r2 =>
      m r1 g i s caps (fun i' s' caps' => m r2 (g + ngroups r1) i' s' caps' kont)
  | Group r' =>
      m r' (S g) i s caps
        (fun i' s' caps' => kont i' s' (set_cap g (JS.take (i' - i) s) caps'))
  end.

(** [RegExp.prototype.exec] without flags: the leftmost start index at
    which the pattern matches. *)
Fixpoint exec_from (r : regex) (i : nat) (s : string) : option captures :=
  match m r 1 i s no_caps
          (fun i' _ caps => Some (set_cap 0 (JS.take (i' - i) s) caps)) with
  | Some c => Some c
  | None =>
      match s with
      | "" => None
      | String _ s' => exec_from r (S i) s'
      end
  end.

(** [String.prototype.match] with a non-global expression. *)
Definition str_match (s : string) (r : regex) : option captures :=
  exec_from r 0 s.

(** [source.replace(/^\^/, '')] and [.replace(/\$$/, '')]: drop a leading
    [^] and a trailing [$]. *)
Definition strip_bol (r : regex) : regex :=
  match r with
  | Seq Bol r' => r'
  | _ => r
  end.

Fixpoint strip_eol (r : regex) : regex :=
  match r with
  | Seq a Eol => a
  | Seq a b => Seq a (strip_eol b)
  | _ => r
  end.

(** The syntax characters of a pattern; they are the characters of the
    class in [escapeRegExp]. *)
Definition is_syntax_char (c : ascii) : bool :=
  existsb (Ascii.eqb c)
    ["."; "*"; "+"; "?"; "^"; "$"; "{"; "}"; "("; ")"; "|"; "["; "]"; "\"]%char.

(** Parsing of pattern text made of plain characters and escaped syntax
    characters, which is what [escapeRegExp] produces. *)
Fixpoint parse_literal (p : string) : option regex :=
  match p with
  | "" => Some Eps
  | String c p' =>
      if Ascii.eqb c "\" then
        match p' with
        | String d p'' =>
            if is_syntax_char d then option_map (Seq (Chr d)) (parse_literal p'')
            else None
        | "" => None
        end
      else if is_syntax_char c then None
      else option_map (Seq (Chr c)) (parse_literal p')
  end.

(** What it means for [r] to match the text [s1] at index [i] when [s2]
    follows. *)
Inductive all_in (k : cclass) : string -> Prop :=
| all_in_one c : in_class k c = true -> all_in k (String c "")
| all_in_more c s : in_class k c = true -> all_in k s -> all_in k (String c s).

Inductive matches : regex -> nat -> string -> string -> Prop :=
| M_Eps i s2 : matches Eps i "" s2
| M_Bol s2 : matches Bol 0 "" s2
| M_Eol i : matches Eol i "" ""
| M_Chr c i s2 : matches (Chr c) i (String c "") s2
| M_Plus k i s1 s2 : all_in k s1 -> matches (Plus k) i s1 s2
| M_Seq r1 r2 i a b s2 :
    matches r1 i a (b ++ s2) ->
    matches r2 (i + String.length a) b s2 ->
    matches (Seq r1 r2) i (a ++ b) s2
| M_Group r i s1 s2 : matches r i s1 s2 -> matches (Group r) i s1 s2.

(** Patterns without anchors. *)
Fixpoint anchor_free (r : regex) : bool :=
  match r with
  | Bol | Eol => false
  | Seq r1 r2 => anchor_free r1 && anchor_free r2
  | Group r' => anchor_free r'
  | _ => true
  end.

End Regex.

Import Regex.

(** ** Constants of the source *)

(** [/^https:\/\/github\.com\/([^/]+)\/([^/]+)\/issues\/(\d+)#issuecomment-(\d+)$/] *)
Definition RE_COMMENT_URL : regex :=
  Seq Bol
    (Seq (lit "https://github.com/")
    (Seq (Group (Plus NotSlash))
    (Seq (Chr "/")
    (Seq (Group (Plus NotSlash))
    (Seq (lit "/issues/")
    (Seq (Group (Plus Digit))
    (Seq (lit "#issuecomment-")
    (Seq (Group (Plus Digit))
     Eol)))))))).

Definition ALLOWED_PERMISSIONS : list string := ["write"; "admin"].

(** ** Reference extractor *)

(** [s.replace(/[.*+?^${}()|[\]\\]/g, '\\$&')] *)
Fixpoint escapeRegExp (s : string) : string :=
  match s with
  | "" => ""
  | String c s' =>
      if is_syntax_char c then String "\" (String c (escapeRegExp s'))
      else String c (escapeRegExp s')
  end.

Record Parsed : Type := mkParsed {
  p_owner : string;
  p_repo : string;
  p_issue : string;
  p_commentId : string;
  p_commentUrl : string
}.

(** The errors [extractCommentURL] throws, one per throw site; [EType] is
    the engine's error when [parts[1]] is undefined or the assembled
    pattern does not parse. *)
Inductive ExtractError : Type :=
| ENoURL
| EMalformedURL
| ECrossRepo (owner repo uOwner uRepo : string)
| EType (msg : string).

Definition error_message (e : ExtractError) : string :=
  match e with
  | ENoURL => "No approval comment URL found in the PR body."
  | EMalformedURL => "The referenced URL is not the correct GitHub issue comment URL."
  | ECrossRepo owner repo uOwner uRepo =>
      "The referenced comment URL should belong to " ++ owner ++ "/" ++ repo
        ++ ", not " ++ uOwner ++ "/" ++ uRepo ++ "."
  | EType msg => msg
  end.

Definition reUrl : regex := strip_eol (strip_bol RE_COMMENT_URL).

(** [new RegExp(`${escapeRegExp(parts[0])}(${reUrl})${escapeRegExp(parts[1])}`)] *)
Definition reference_regex (part0 part1 : string) : option regex :=
  match parse_literal (escapeRegExp part0), parse_literal (escapeRegExp part1) with
  | Some pre, Some suf => Some (Seq pre (Seq (Group reUrl) suf))
  | _, _ => None
  end.

Definition cap (c : captures) (n : nat) : string :=
  match c n with Some v => v | None => "" end.

Definition extractCommentURL (prBody referenceStr owner repo : string)
  : ExtractError + Parsed :=
  let parts := JS.split referenceStr "{url}" in
  match nth_error parts 0, nth_error parts 1 with
  | Some part0, Some part1 =>
      match reference_regex part0 part1 with
      | None => inl (EType "Invalid regular expression")
      | Some re =>
          match str_match prBody re with
          | None => inl ENoURL
          | Some mt =>
              match mt 1 with
              | None | Some "" => inl ENoURL
              | Some commentUrl =>
                  match str_match commentUrl RE_COMMENT_URL with
                  | None => inl EMalformedURL
                  | Some u =>
                      let pOwner := JS.toLowerCase (cap u 1) in
                      let pRepo := JS.toLowerCase (cap u 2) in
                      if negb (String.eqb pOwner owner) || negb (String.eqb pRepo repo)
                      then inl (ECrossRepo owner repo (cap u 1) (cap u 2))
                      else inr (mkParsed pOwner pRepo (cap u 3) (cap u 4) commentUrl)
                  end
              end
          end
      end
  | _, _ => inl (EType "Cannot read properties of undefined (reading 'replace')")
  end.


(** ** Effects

    A computation returns a value, throws, or is still running when its
    fuel is spent, and leaves the list of what it logged and requested. *)
Module Eff.

Inductive Method : Type := GET | POST | PATCH.

(** A JSON object with string fields, as passed to [_send]. *)
Definition Payload := list (string * string).

Inductive Event : Type :=
| Info (msg : string)                                          (* core.info *)
| SetFailed (msg : string)                                     (* core.setFailed *)
| Fetch (mth : Method) (url : string) (body : option Payload). (* fetch(url, opts) *)

Inductive Res (A : Type) : Type :=
| Ret (a : A)
| Throw (message : string)
| Running.

Arguments Ret {A} a.
Arguments Throw {A} message.
Arguments Running {A}.

Definition M (A : Type) : Type := (Res A * list Event)%type.

Definition ret {A} (a : A) : M A := (Ret a, []).

Definition throw {A} (msg : string) : M A := (Throw msg, []).

Definition bind {A B} (c : M A) (f : A -> M B) : M B :=
  match c with
  | (Ret a, t) => let (r, t') := f a in (r, t ++ t')%list
  | (Throw e, t) => (Throw e, t)
  | (Running, t) => (Running, t)
  end.

(** [try { c } catch (err) { h err.message }] *)
Definition try_catch {A} (c : M A) (h : string -> M A) : M A :=
  match c with
  | (Throw e, t) => let (r, t') := h e in (r, t ++ t')%list
  | other => other
  end.

Definition emit (e : Event) : M unit := (Ret tt, [e]).

Definition info (msg : string) : M unit := emit (Info msg).

Definition setFailed (msg : string) : M unit := emit (SetFailed msg).

Definition result {A} (c : M A) : Res A := fst c.

Definition trace {A} (c : M A) : list Event := snd c.

End Eff.

Import Eff.

Notation "x <- c ;; k" := (bind c (fun x => k))
  (at level 61, c at next level, right associativity).
Notation "c ;;; k" := (bind c (fun _ => k))
  (at level 61, right associativity).

(** ** The remote API

    Response bodies are typed by endpoint, following the schema of the
    GitHub REST API, with the fields the program reads; a field the
    program guards with [?.] is optional.  A body that does not decode, or
    decodes to [null], is [None]; bodies of another shape than the
    endpoint's are outside the model.  Request headers (the token, the
    API version) are fixed and left out of the trace. *)

Record Contributor : Type := { c_login : option string }.

Record Comment : Type := {
  issue_url : string;
  comment_body : option string;
  comment_user_login : option string    (* comment.user?.login *)
}.

Record Issue : Type := { issue_state : string }.

Record Permission : Type := { permission : string }.

(** What [fetch] delivers: a status, the body as [res.json()] decodes it
    ([None] when there is none or it does not decode) and the [link]
    header. *)
Record HttpResponse (T : Type) : Type := {
  http_status : nat;
  http_json : option T;
  http_link : option string
}.

Arguments http_status {T}.
Arguments http_json {T}.
Arguments http_link {T}.

Inductive FetchResult (T : Type) : Type :=
| NetworkError (message : string)
| Responded (r : HttpResponse T).

Arguments NetworkError {T} message.
Arguments Responded {T} r.

(** The server, one function of the URL per endpoint. *)
Record Api : Type := {
  contributors : string -> FetchResult (list Contributor);
  issue_comment : string -> FetchResult Comment;
  issue : string -> FetchResult Issue;
  collaborator_permission : string -> FetchResult Permission;
  mutate : Method -> string -> Payload -> FetchResult unit
}.

(** ** The checker *)

Record Config : Type := {
  approvalStr : string;
  referenceStr : string;
  autocloseMsg : string;
  excludeContribs : bool
}.

Definition DEFAULT_CONFIG_approvalStr : string := "{user} PR approved".
Definition DEFAULT_CONFIG_referenceStr : string := "Approval: {url}".
Definition DEFAULT_CONFIG_autocloseMsg : string :=
  "This PR was automatically closed because the reference to approval (issue) could not be found. Please open an issue first, get approval from the maintainer, and reference the approval comment URL in your PR body in the format `Approval: {url}`.".

Record PRApproval : Type := {
  token : string;
  owner : string;
  repo : string;
  prNumber : nat;
  prUser : string;
  prBody : string;
  cfg : Config
}.

(** The value [_request] returns. *)
Record Reply (T : Type) : Type := {
  status : nat;
  ok : bool;
  data : option T;
  link : option string
}.

Arguments status {T}.
Arguments ok {T}.
Arguments data {T}.
Arguments link {T}.

Inductive SkipReason : Type :=
| PastContributor   (* check returns after the contributor lookup *)
| OwnerPR.          (* run returns before building the checker *)

(** How an invocation ends: each [return] of [check] and [run] is tagged
    with the outcome it stands for. *)
Inductive Outcome : Type :=
| Approved
| Skipped (why : SkipReason)
| Closed (reason : string)
| Failed (message : string).

Definition nl : string := String "010"%char "".
Definition dquote : string := String "034"%char "".
Definition rel_next : string := "rel=" ++ dquote ++ "next" ++ dquote.

(** The [data] that [_request] keeps of a response: nothing is read from
    a 204, and a body that does not decode is dropped. *)
Definition body_of {T} (res : HttpResponse T) : option T :=
  if Nat.eqb (http_status res) 204 then None else http_json res.

Section Checker.

Variable remote : Api.
Variable this : PRApproval.

Definition api : string :=
  "https://api.github.com/repos/" ++ owner this ++ "/" ++ repo this.

(** [res.ok] *)
Definition status_ok (st : nat) : bool := Nat.leb 200 st && Nat.leb st 299.

Definition _request {T} (answer : FetchResult T) (mth : Method) (url : string)
    (body : option Payload) : M (Reply T) :=
  emit (Fetch mth url body) ;;;
  match answer with
  | NetworkError msg => throw ("error calling GitHub API: " ++ msg)
  | Responded res =>
      ret {| status := http_status res; ok := status_ok (http_status res);
             data := body_of res; link := http_link res |}
  end.

Definition _get {T} (endpoint : string -> FetchResult T) (url : string) : M (Reply T) :=
  _request (endpoint url) GET url None.

Definition _send (mth : Method) (url : string) (body : Payload) : M (Reply unit) :=
  _request (mutate remote mth url body) mth url (Some body).

Definition when (b : bool) (c : M unit) : M unit := if b then c else ret tt.

Definition _closePR (reason : string) : M unit :=
  info reason ;;;
  try_catch
    (res <- _send POST (api ++ "/issues/" ++ JS.of_nat (prNumber this) ++ "/comments")
              [("body", autocloseMsg (cfg this) ++ nl ++ nl ++ "**Reason:** " ++ reason)] ;;
     when (negb (ok res))
       (info ("errror posting auto-close comment (status "
                ++ JS.of_nat (status res) ++ ").")) ;;;
     closeRes <- _send PATCH (api ++ "/pulls/" ++ JS.of_nat (prNumber this))
                   [("state", "closed")] ;;
     when (negb (ok closeRes))
       (info ("errror closing PR #" ++ JS.of_nat (prNumber this) ++ " (status "
                ++ JS.of_nat (status closeRes) ++ ").")))
    (fun _ => info "error closing PR").

(** [c.login?.toLowerCase() === this.prUser] *)
Definition login_matches (c : Contributor) : bool :=
  match c_login c with
  | Some l => String.eqb (JS.toLowerCase l) (prUser this)
  | None => false
  end.

Definition link_or_empty (l : option string) : string :=
  match l with Some v => v | None => "" end.

(** The [while (true)] loop of [_isContributor], from page [page]; each
    iteration uses one unit of fuel. *)
Fixpoint _isContributor_from (fuel page : nat) : M bool :=
  match fuel with
  | 0 => (Running, [])
  | S fuel' =>
      r <- _get (contributors remote)
             (api ++ "/contributors?per_page=100&page=" ++ JS.of_nat page) ;;
      match Nat.eqb (status r) 200, data r with
      | true, Some d =>
          if existsb login_matches d then ret true
          else if negb (JS.includes (link_or_empty (link r)) rel_next) then ret false
          else _isContributor_from fuel' (S page)
      | _, _ => ret false
      end
  end.

Definition _isContributor (fuel : nat) : M bool := _isContributor_from fuel 1.

(** A step of [check] either returns from [check] or hands a value on. *)
Definition step {A} (c : M (Outcome + A)) (k : A -> M Outcome) : M Outcome :=
  r <- c ;;
  match r with
  | inl o => ret o
  | inr a => k a
  end.

Definition fail {A} (msg : string) : M (Outcome + A) :=
  setFailed msg ;;; ret (inl (Failed msg)).

Definition close {A} (reason : string) : M (Outcome + A) :=
  _closePR reason ;;; ret (inl (Closed reason)).

Definition continue {A} (a : A) : M (Outcome + A) := ret (inr a).

Definition contributor_step (fuel : nat) : M (Outcome + unit) :=
  if excludeContribs (cfg this) then
    info "exclude_past_contributors is enabled. Checking contributor list" ;;;
    try_catch
      (b <- _isContributor fuel ;;
       if b then
         info ("@" ++ prUser this ++ " is a past contributor. Skipping approval check.") ;;;
         ret (inl (Skipped PastContributor))
       else
         info ("@" ++ prUser this
                 ++ " is not a past contributor. Continue with approval check.") ;;;
         continue tt)
      (fun err => fail ("error checking contributors: " ++ err))
  else continue tt.

Definition extract_step : M (Outcome + Parsed) :=
  match extractCommentURL (prBody this) (referenceStr (cfg this)) (owner this) (repo this) with
  | inr parsed =>
      info ("Found comment URL: " ++ p_commentUrl parsed) ;;;
      continue parsed
  | inl err => fail (error_message err)
  end.

Definition comment_step (parsed : Parsed) : M (Outcome + Comment) :=
  try_catch
    (r <- _get (issue_comment remote) (api ++ "/issues/comments/" ++ p_commentId parsed) ;;
     match data r with
     | None => close "The referenced PR approval comment was not found."
     | Some d =>
         if Nat.eqb (status r) 404 then
           close "The referenced PR approval comment was not found."
         else if negb (Nat.eqb (status r) 200) then
           fail ("GitHub API returned status " ++ JS.of_nat (status r)
                   ++ " while fetching comment.")
         else continue d
     end)
    (fun err => fail ("error fetching comment: " ++ err)).

Definition issue_step (comment : Comment) : M (Outcome + unit) :=
  try_catch
    (r <- _get (issue remote) (issue_url comment) ;;
     match Nat.eqb (status r) 200, data r with
     | true, Some i =>
         if negb (String.eqb (issue_state i) "open") then
           close "The referenced PR approval comment issue is closed."
         else continue tt
     | _, _ => fail ("error fetching issue (status " ++ JS.of_nat (status r) ++ ").")
     end)
    (fun err => fail ("error checking issue state: " ++ err)).

(** [this.cfg.approvalStr.replace('{user}', `@${this.prUser}`)] *)
Definition expected : string :=
  JS.replace (approvalStr (cfg this)) "{user}" ("@" ++ prUser this).

(** [comment.body?.includes(expected)] *)
Definition body_includes (comment : Comment) : bool :=
  match comment_body comment with
  | Some b => JS.includes b expected
  | None => false
  end.

Definition phrase_step (comment : Comment) : M (Outcome + unit) :=
  if negb (body_includes comment) then
    close ("Approval string " ++ dquote ++ expected ++ dquote
             ++ " was not found in the referenced comment.")
  else continue tt.

Definition approver_step (comment : Comment) : M (Outcome + string) :=
  match comment_user_login comment with
  | None | Some "" => fail "The referenced approval comment does not have a valid author."
  | Some approver => continue approver
  end.

(** [ALLOWED_PERMISSIONS.has(p)] *)
Definition allowed (p : string) : bool := existsb (String.eqb p) ALLOWED_PERMISSIONS.

Definition permission_step (approver : string) : M (Outcome + unit) :=
  try_catch
    (r <- _get (collaborator_permission remote)
            (api ++ "/collaborators/" ++ approver ++ "/permission") ;;
     match Nat.eqb (status r) 200, data r with
     | true, Some d =>
         if negb (allowed (permission d)) then
           close ("@" ++ approver ++ " does not have write or admin access to this repository.")
         else continue tt
     | _, _ =>
         fail ("error checking permissions for @" ++ approver ++ " (status "
                 ++ JS.of_nat (status r) ++ ").")
     end)
    (fun err => fail ("error checking approver permissions: " ++ err)).

(** [check], lines 182 to 239: everything after the contributor block. *)
Definition check_reference : M Outcome :=
  step extract_step (fun parsed =>
  step (comment_step parsed) (fun comment =>
  step (issue_step comment) (fun _ =>
  step (phrase_step comment) (fun _ =>
  step (approver_step comment) (fun approver =>
  step (permission_step approver) (fun _ =>
  info ("PR #" ++ JS.of_nat (prNumber this) ++ " has valid approval from @" ++ approver
          ++ ". All checks passed.") ;;;
  ret Approved)))))).

Definition check (fuel : nat) : M Outcome :=
  info ("verifying PR #" ++ JS.of_nat (prNumber this) ++ " by @" ++ prUser this
          ++ " in " ++ owner this ++ "/" ++ repo this) ;;;
  step (contributor_step fuel) (fun _ => check_reference).

End Checker.

(** ** Entry point *)

Record PullRequest : Type := {
  number : nat;
  user_login : string;
  body : option string;
  base_repo_owner_login : string;
  base_repo_name : string
}.

(** The host: the environment variable, the event file as
    [JSON.parse(readFileSync(path))] yields it (an error message, or the
    [pull_request] member of the event) and [core.getInput]. *)
Record Env : Type := {
  GITHUB_EVENT_PATH : option string;
  read_event : string -> string + option PullRequest;
  getInput : string -> string
}.

Definition failed (msg : string) : M Outcome :=
  setFailed msg ;;; ret (Failed msg).

(** [a || b] on strings. *)
Definition or_else (a b : string) : string :=
  if String.eqb a "" then b else a.

(** The message [validateConfig] fails with, if any. *)
Definition config_error (c : Config) : option string :=
  if negb (JS.includes (referenceStr c) "{url}") then
    Some "`reference_str` must contain the `{url}` placeholder."
  else if negb (JS.includes (approvalStr c) "{user}") then
    Some "`approval_str` must contain the `{user}` placeholder."
  else None.

Definition validateConfig (c : Config) : M (Outcome + unit) :=
  match config_error c with
  | Some msg => setFailed msg ;;; ret (inl (Failed msg))
  | None => ret (inr tt)
  end.

Definition run (remote : Api) (env : Env) (fuel : nat) : M Outcome :=
  match GITHUB_EVENT_PATH env with
  | None | Some "" => failed "Missing GITHUB_EVENT_PATH."
  | Some eventPath =>
      match read_event env eventPath with
      | inl err => failed ("Could not read GitHub event payload: " ++ err)
      | inr None => failed "This action must be triggered by the `pull_request` event."
      | inr (Some pr) =>
          let token := getInput env "github_token" in
          if String.eqb token "" then failed "github_token input is required."
          else if String.eqb (JS.toLowerCase (base_repo_owner_login pr))
                             (JS.toLowerCase (user_login pr)) then
            info "PR author is the same as the repo owner. Skipping approval checks." ;;;
            ret (Skipped OwnerPR)
          else
            let cfg :=
              {| approvalStr := or_else (getInput env "approval_str") DEFAULT_CONFIG_approvalStr;
                 referenceStr := or_else (getInput env "reference_str") DEFAULT_CONFIG_referenceStr;
                 autocloseMsg :=
                   or_else (getInput env "pr_autoclose_message") DEFAULT_CONFIG_autocloseMsg;
                 excludeContribs := String.eqb (getInput env "exclude_past_contributors") "true" |} in
            valid <- validateConfig cfg ;;
            match valid with
            | inl o => ret o
            | inr _ =>
                check remote
                  {| token := token;
                     owner := JS.toLowerCase (base_repo_owner_login pr);
                     repo := JS.toLowerCase (base_repo_name pr);
                     prNumber := number pr;
                     prUser := JS.toLowerCase (user_login pr);
                     prBody := match body pr with Some b => b | None => "" end;
                     cfg := cfg |}
                  fuel
            end
      end
  end.

(** [run().catch(err => core.setFailed(`Unhandled error: ${err.message}`))] *)
Definition main (remote : Api) (env : Env) (fuel : nat) : M Outcome :=
  try_catch (run remote env fuel) (fun err => failed ("Unhandled error: " ++ err)).

(** ** Vocabulary of the statements *)

(** A step of [check] handed [a] on to the next step. *)
Definition passed {A} (c : M (Outcome + A)) (a : A) : Prop :=
  result c = Ret (inr a).

(** The comment [_closePR] posts for [reason]. *)
Definition autoclose_comment (this : PRApproval) (reason : string) : Event :=
  Fetch POST (api this ++ "/issues/" ++ JS.of_nat (prNumber this) ++ "/comments")%string
    (Some [("body", autocloseMsg (cfg this) ++ nl ++ nl ++ "**Reason:** " ++ reason)%string]).

(** The request [_closePR] closes the pull request with. *)
Definition close_request (this : PRApproval) : Event :=
  Fetch PATCH (api this ++ "/pulls/" ++ JS.of_nat (prNumber this))
    (Some [("state", "closed")]).

Definition is_mutation (e : Event) : bool :=
  match e with
  | Fetch POST _ _ | Fetch PATCH _ _ => true
  | _ => false
  end.

Definition is_fetch (e : Event) : bool :=
  match e with
  | Fetch _ _ _ => true
  | _ => false
  end.

(** No comment was posted and no close was requested. *)
Definition untouched (t : list Event) : Prop := filter is_mutation t = [].

Definition contributors_url (this : PRApproval) (page : nat) : string :=
  api this ++ "/contributors?per_page=100&page=" ++ JS.of_nat page.

(** Page [p] of the contributor list makes the loop go on to page [p+1]:
    it answers 200 with data, no login on it is the author's, and its link
    header has [rel="next"] in it. *)
Definition advances (remote : Api) (this : PRApproval) (p : nat) : Prop :=
  exists r d,
    contributors remote (contributors_url this p) = Responded r /\
    http_status r = 200 /\ http_json r = Some d /\
    existsb (login_matches this) d = false /\
    JS.includes (link_or_empty (http_link r)) rel_next = true.

(** Page [p] answers 200 with data on which some login is the author's. *)
Definition found (remote : Api) (this : PRApproval) (p : nat) : Prop :=
  exists r d,
    contributors remote (contributors_url this p) = Responded r /\
    http_status r = 200 /\ http_json r = Some d /\
    existsb (login_matches this) d = true.

(** Page [p] answers with another status than 200, or without data. *)
Definition unusable (remote : Api) (this : PRApproval) (p : nat) : Prop :=
  exists r,
    contributors remote (contributors_url this p) = Responded r /\
    (http_status r <> 200 \/ body_of r = None).

(** Page [p] answers 200 with data, without the author and without a
    next page. *)
Definition last_page (remote : Api) (this : PRApproval) (p : nat) : Prop :=
  exists r d,
    contributors remote (contributors_url this p) = Responded r /\
    http_status r = 200 /\ http_json r = Some d /\
    existsb (login_matches this) d = false /\
    JS.includes (link_or_empty (http_link r)) rel_next = false.

Definition page_request (this : PRApproval) (p : nat) : Event :=
  Fetch GET (contributors_url this p) None.

Definition is_failure (e : Event) : bool :=
  match e with
  | SetFailed _ => true
  | _ => false
  end.

(** [core.setFailed] was not called. *)
Definition unreported (t : list Event) : Prop := filter is_failure t = [].

(** What the tag of an outcome says about the effects: a failure was
    reported and nothing was posted or closed; a closure asked for the
    explanatory comment and reported no failure; approval and skipping did
    neither. *)
Definition tagged (this : PRApproval) (r : Res Outcome) (t : list Event) : Prop :=
  match r with
  | Ret (Failed msg) => In (SetFailed msg) t /\ untouched t
  | Ret (Closed reason) => In (autoclose_comment this reason) t /\ unreported t
  | Ret Approved | Ret (Skipped _) => untouched t /\ unreported t
  | Throw _ => False
  | Running => untouched t /\ unreported t
  end.

Definition step_tagged {A} (this : PRApproval) (c : M (Outcome + A)) : Prop :=
  match result c with
  | Ret (inl o) => tagged this (Ret o) (trace c)
  | Ret (inr _) | Running => untouched (trace c) /\ unreported (trace c)
  | Throw _ => False
  end.

(** The loop gets as far as requesting page [p]. *)
Definition scanned (remote : Api) (this : PRApproval) (p : nat) : Prop :=
  forall q, 1 <= q -> q < p -> advances remote this q.

(** The requests for pages 1 to [p], in order. *)
Definition page_requests (this : PRApproval) (p : nat) : list Event :=
  map (page_request this) (seq 1 p).


(** [s] occurs in [b]. *)
Definition substring_of (s b : string) : Prop :=
  exists l r, b = l ++ s ++ r.

(** ** Scenarios *)

Definition answer {T} (st : nat) (d : T) : FetchResult T :=
  Responded {| http_status := st; http_json := Some d; http_link := None |}.

Definition no_answer {T} (st : nat) : FetchResult T :=
  Responded {| http_status := st; http_json := None; http_link := None |}.

(** The repository [acme/widgets]: comment 9 on issue 5 is [carol]'s, with
    the given body, and [carol] has the permission [perm]; there is no
    other comment. *)
Definition widgets_api_with (commentBody issueState perm : string) : Api :=
  {| contributors := fun _ => answer 200 [];
     issue_comment := fun url =>
       if String.eqb url "https://api.github.com/repos/acme/widgets/issues/comments/9"
       then answer 200 {| issue_url := "https://api.github.com/repos/acme/widgets/issues/5";
                          comment_body := Some commentBody;
                          comment_user_login := Some "carol" |}
       else no_answer 404;
     issue := fun _ => answer 200 {| issue_state := issueState |};
     collaborator_permission := fun _ => answer 200 {| permission := perm |};
     mutate := fun _ _ _ => no_answer 201 |}.

Definition widgets_api : string -> string -> Api := widgets_api_with "@bob PR approved".

Definition default_cfg : Config :=
  {| approvalStr := DEFAULT_CONFIG_approvalStr;
     referenceStr := DEFAULT_CONFIG_referenceStr;
     autocloseMsg := DEFAULT_CONFIG_autocloseMsg;
     excludeContribs := false |}.

Definition bob_pr (prBody : string) : PRApproval :=
  {| token := "t"; owner := "acme"; repo := "widgets"; prNumber := 7;
     prUser := "bob"; prBody := prBody; cfg := default_cfg |}.

Definition valid_body : string :=
  "Approval: https://github.com/acme/widgets/issues/5#issuecomment-9".

(** Scenario A of the specification: the reference lacks [/issues/42]. *)
Definition scenario_A : PRApproval :=
  bob_pr "Approval: https://github.com/acme/widgets#issuecomment-9".


Definition alice_pr : PRApproval :=
  {| token := "t"; owner := "acme"; repo := "widgets"; prNumber := 8;
     prUser := "alice"; prBody := valid_body; cfg := default_cfg |}.

(** A reference to a comment that does not exist. *)
Definition dangling_body : string :=
  "Approval: https://github.com/acme/widgets/issues/5#issuecomment-10".

(** Scenario D of the specification: two pages of contributors, the
    author on the second. *)
Definition roster_api : Api :=
  {| contributors := fun url =>
       if String.eqb url
            "https://api.github.com/repos/acme/widgets/contributors?per_page=100&page=1"
       then Responded {| http_status := 200;
                         http_json := Some [ {| c_login := Some "alice" |};
                                             {| c_login := None |} ];
                         http_link := Some ("<https://api.github.com/p2>; " ++ rel_next) |}
       else answer 200 [ {| c_login := Some "Bob" |} ];
     issue_comment := fun _ => no_answer 404;
     issue := fun _ => no_answer 404;
     collaborator_permission := fun _ => no_answer 404;
     mutate := fun _ _ _ => no_answer 201 |}.

Definition excluding_pr : PRApproval :=
  {| token := "t"; owner := "acme"; repo := "widgets"; prNumber := 7;
     prUser := "bob"; prBody := "";
     cfg := {| approvalStr := DEFAULT_CONFIG_approvalStr;
               referenceStr := DEFAULT_CONFIG_referenceStr;
               autocloseMsg := DEFAULT_CONFIG_autocloseMsg;
               excludeContribs := true |} |}.

(** A pull request by the owner of the repository, with the input
    [force_validate_owner_prs] set. *)
Definition owner_pr : PullRequest :=
  {| number := 7; user_login := "Acme"; body := Some valid_body;
     base_repo_owner_login := "acme"; base_repo_name := "widgets" |}.

Definition forced_env : Env :=
  {| GITHUB_EVENT_PATH := Some "/github/workflow/event.json";
     read_event := fun _ => inr (Some owner_pr);
     getInput := fun name =>
       if String.eqb name "github_token" then "t"
       else if String.eqb name "force_validate_owner_prs" then "true"
       else "" |}.

Definition owner_skip_message : string :=
  "PR author is the same as the repo owner. Skipping approval checks.".


Definition valid_parsed : Parsed :=
  mkParsed "acme" "widgets" "5" "9" "https://github.com/acme/widgets/issues/5#issuecomment-9".

Definition carol_comment (commentBody : string) : Comment :=
  {| issue_url := "https://api.github.com/repos/acme/widgets/issues/5";
     comment_body := Some commentBody;
     comment_user_login := Some "carol" |}.

(** A server that cannot be reached for writes. *)
Definition offline_api : Api :=
  {| contributors := fun _ => NetworkError "fetch failed";
     issue_comment := fun _ => NetworkError "fetch failed";
     issue := fun _ => NetworkError "fetch failed";
     collaborator_permission := fun _ => NetworkError "fetch failed";
     mutate := fun _ _ _ => NetworkError "fetch failed" |}.

(** A server whose every contributor page is empty and advertises a next
    page. *)
Definition endless_api : Api :=
  {| contributors := fun _ =>
       Responded {| http_status := 200; http_json := Some [];
                    http_link := Some ("<https://api.github.com/next>; " ++ rel_next) |};
     issue_comment := fun _ => no_answer 404;
     issue := fun _ => no_answer 404;
     collaborator_permission := fun _ => no_answer 404;
     mutate := fun _ _ _ => no_answer 201 |}.

Definition comments_url (this : PRApproval) : string :=
  api this ++ "/issues/" ++ JS.of_nat (prNumber this) ++ "/comments".

Definition autoclose_payload (this : PRApproval) (reason : string) : Payload :=
  [("body", autocloseMsg (cfg this) ++ nl ++ nl ++ "**Reason:** " ++ reason)].

Definition pulls_url (this : PRApproval) : string :=
  api this ++ "/pulls/" ++ JS.of_nat (prNumber this).


(** The URLs and reasons of [check]. *)
Definition comment_url (this : PRApproval) (parsed : Parsed) : string :=
  api this ++ "/issues/comments/" ++ p_commentId parsed.

Definition not_found_reason : string := "The referenced PR approval comment was not found.".

Definition issue_closed_reason : string :=
  "The referenced PR approval comment issue is closed.".

Definition phrase_reason (phrase : string) : string :=
  "Approval string " ++ dquote ++ phrase ++ dquote
    ++ " was not found in the referenced comment.".

Definition permission_url (this : PRApproval) (approver : string) : string :=
  api this ++ "/collaborators/" ++ approver ++ "/permission".

Definition permission_reason (approver : string) : string :=
  "@" ++ approver ++ " does not have write or admin access to this repository.".

(** [check] from a step onwards. *)
Definition finish (this : PRApproval) (approver : string) : M Outcome :=
  info ("PR #" ++ JS.of_nat (prNumber this) ++ " has valid approval from @" ++ approver
          ++ ". All checks passed.") ;;;
  ret Approved.

Definition from_permission (remote : Api) (this : PRApproval) (approver : string) : M Outcome :=
  step (permission_step remote this approver) (fun _ => finish this approver).

Definition from_approver (remote : Api) (this : PRApproval) (comment : Comment) : M Outcome :=
  step (approver_step comment) (from_permission remote this).

Definition from_phrase (remote : Api) (this : PRApproval) (comment : Comment) : M Outcome :=
  step (phrase_step remote this comment) (fun _ => from_approver remote this comment).

Definition from_issue (remote : Api) (this : PRApproval) (comment : Comment) : M Outcome :=
  step (issue_step remote this comment) (fun _ => from_phrase remote this comment).

Definition from_comment (remote : Api) (this : PRApproval) (parsed : Parsed) : M Outcome :=
  step (comment_step remote this parsed) (from_issue remote this).

(** [c] gets to [rest] without having posted or closed anything, and ends
    as [rest] ends. *)
Definition reaches (c rest : M Outcome) : Prop :=
  result c = result rest /\
  exists t0, trace c = (t0 ++ trace rest)%list /\ untouched t0.

(** ** Vocabulary of the further properties *)

(** The text of a comment URL with the given owner, repository, issue
    number and comment id. *)
Definition comment_url_text (o r n c : string) : string :=
  "https://github.com/" ++ o ++ "/" ++ r ++ "/issues/" ++ n ++ "#issuecomment-" ++ c.

(** Owner and repository are non-empty and free of slashes, the two
    numbers are non-empty runs of digits. *)
Definition url_parts (o r n c : string) : Prop :=
  all_in NotSlash o /\ all_in NotSlash r /\ all_in Digit n /\ all_in Digit c.

(** The body holds the reference template filled in with a comment URL. *)
Definition holds_reference (prBody part0 part1 : string) : Prop :=
  exists pre o r n c post,
    prBody = pre ++ part0 ++ comment_url_text o r n c ++ part1 ++ post /\
    url_parts o r n c.


(** A pull request by [Bob] on [Acme/Widgets], with the token as the only
    input. *)
Definition bob_event : PullRequest :=
  {| number := 7; user_login := "Bob"; body := Some valid_body;
     base_repo_owner_login := "Acme"; base_repo_name := "Widgets" |}.

Definition bob_env : Env :=
  {| GITHUB_EVENT_PATH := Some "/github/workflow/event.json";
     read_event := fun _ => inr (Some bob_event);
     getInput := fun name => if String.eqb name "github_token" then "t" else "" |}.



(** A step closes through [_closePR] after effects that touch nothing,
    or touches nothing at all; it does not throw. *)
Definition closes_once {A} (remote : Api) (this : PRApproval) (c : M (Outcome + A)) : Prop :=
  match result c with
  | Ret (inl (Closed reason)) =>
      exists t0, trace c = (t0 ++ trace (_closePR remote this reason))%list /\ untouched t0
  | Throw _ => False
  | _ => untouched (trace c)
  end.

(** The same for a whole run of [check]. *)
Definition closed_once (remote : Api) (this : PRApproval) (c : M Outcome) : Prop :=
  untouched (trace c) \/
  exists reason t0,
    result c = Ret (Closed reason) /\
    trace c = (t0 ++ trace (_closePR remote this reason))%list /\ untouched t0.




(** The remediation for [reason] ran: the requests that change the pull
    request are the explanatory comment and then the close request, in
    this order and once each; the close request is missing only when the
    comment request failed in transport. *)
Definition remediated (remote : Api) (this : PRApproval) (reason : string)
    (t : list Event) : Prop :=
  filter is_mutation t =
  match mutate remote POST (comments_url this) (autoclose_payload this reason) with
  | Responded _ => [autoclose_comment this reason; close_request this]
  | NetworkError _ => [autoclose_comment this reason]
  end.


(** * Properties *)

(** ** Strings *)

Lemma append_nil_r (s : string) : s ++ "" = s.
Proof. induction s; simpl; congruence. Qed.

Lemma append_assoc (a b c : string) : (a ++ b) ++ c = a ++ (b ++ c).
Proof. induction a; simpl; congruence. Qed.

Lemma length_append (a b : string) :
  String.length (a ++ b) = String.length a + String.length b.
Proof. induction a; simpl; congruence. Qed.

Lemma take_append (a b : string) : JS.take (String.length a) (a ++ b) = a.
Proof. induction a; simpl; [destruct b; reflexivity | congruence]. Qed.

Lemma drop_append (a b : string) : JS.drop (String.length a) (a ++ b) = b.
Proof. induction a; simpl; [destruct b; reflexivity | assumption]. Qed.

Lemma take_drop (n : nat) (s : string) : JS.take n s ++ JS.drop n s = s.
Proof.
  revert s; induction n; intros [|c s]; simpl; try reflexivity.
  now rewrite IHn.
Qed.

Lemma prefix_append (p s : string) : prefix p (p ++ s) = true.
Proof.
  induction p as [|c p IH]; simpl.
  - destruct s; reflexivity.
  - destruct (ascii_dec c c); [assumption | congruence].
Qed.

Lemma prefix_inv (p s : string) : prefix p s = true -> exists r, s = p ++ r.
Proof.
  revert s; induction p as [|c p IH]; intros s H.
  - exists s; reflexivity.
  - destruct s as [|d s]; simpl in H; [discriminate|].
    destruct (ascii_dec c d); [subst|discriminate].
    destruct (IH _ H) as [r ->]. exists r; reflexivity.
Qed.

(** ** The matcher against the meaning of patterns *)

Lemma ngroups_lit (p : string) : ngroups (lit p) = 0.
Proof. induction p; simpl; auto. Qed.

Lemma lit_sound {R} (p : string) :
  forall g i s caps (kont : cont R) res,
    m (lit p) g i s caps kont = Some res ->
    exists s', s = p ++ s' /\ kont (i + String.length p) s' caps = Some res.
Proof.
  induction p as [|c p IH]; intros g i s caps kont res H; simpl in H.
  - exists s. rewrite Nat.add_0_r. auto.
  - destruct s as [|d s]; [discriminate|].
    destruct (Ascii.eqb_spec c d); [subst|discriminate].
    apply IH in H. destruct H as (s' & -> & H).
    exists s'. split; [reflexivity|].
    simpl. now rewrite <- Nat.add_succ_comm.
Qed.

Lemma plus_loop_sound {R} (k : cclass) :
  forall s i caps (kont : cont R) res,
    plus_loop k i s caps kont = Some res ->
    exists a s', s = a ++ s' /\ all_in k a /\
                 kont (i + String.length a) s' caps = Some res.
Proof.
  induction s as [|c s IH]; intros i caps kont res H; simpl in H; [discriminate|].
  destruct (in_class k c) eqn:Hc; [|discriminate].
  destruct (plus_loop k (S i) s caps kont) eqn:Hl.
  - injection H as ->. apply IH in Hl. destruct Hl as (a & s' & -> & Ha & Hk).
    exists (String c a), s'. repeat split.
    + now apply all_in_more.
    + simpl. now rewrite <- Nat.add_succ_comm.
  - exists (String c ""), s. repeat split.
    + now apply all_in_one.
    + simpl. now rewrite Nat.add_1_r.
Qed.

Lemma m_sound {R} (r : regex) :
  forall g i s caps (kont : cont R) res,
    m r g i s caps kont = Some res ->
    exists s1 s2 caps',
      s = s1 ++ s2 /\ matches r i s1 s2 /\
      kont (i + String.length s1) s2 caps' = Some res.
Proof.
  induction r as [| | |c|k|r1 IH1 r2 IH2|r IH]; intros g i s caps kont res H; simpl in H.
  - exists "", s, caps. rewrite Nat.add_0_r. repeat split; auto. constructor.
  - destruct (Nat.eqb_spec i 0); [subst|discriminate].
    exists "", s, caps. repeat split; auto. constructor.
  - destruct s; [|discriminate].
    exists "", "", caps. rewrite Nat.add_0_r. repeat split; auto. constructor.
  - destruct s as [|d s]; [discriminate|].
    destruct (Ascii.eqb_spec c d); [subst|discriminate].
    exists (String d ""), s, caps. simpl. rewrite Nat.add_1_r.
    repeat split; auto. constructor.
  - apply plus_loop_sound in H. destruct H as (a & s' & -> & Ha & Hk).
    exists a, s', caps. repeat split; auto. now constructor.
  - apply IH1 in H. destruct H as (a & s' & c1 & -> & Ha & H).
    apply IH2 in H. destruct H as (b & s2 & c2 & -> & Hb & H).
    exists (a ++ b), s2, c2. rewrite append_assoc, length_append, Nat.add_assoc.
    repeat split; auto. now constructor.
  - apply IH in H. destruct H as (s1 & s2 & c1 & -> & Hm & H).
    eexists s1, s2, _. repeat split; eauto. now constructor.
Qed.

Lemma plus_loop_complete {R} (k : cclass) (a : string) :
  all_in k a ->
  forall i s2 caps (kont : cont R),
    (forall caps', kont (i + String.length a) s2 caps' <> None) ->
    plus_loop k i (a ++ s2) caps kont <> None.
Proof.
  induction 1 as [c Hc|c a Hc Ha IH]; intros i s2 caps kont Hk; simpl; rewrite Hc.
  - destruct (plus_loop k (S i) s2 caps kont); [discriminate|].
    specialize (Hk caps). simpl in Hk. now rewrite Nat.add_1_r in Hk.
  - destruct (plus_loop k (S i) (a ++ s2) caps kont) eqn:Hl; [discriminate|].
    exfalso. revert Hl. apply IH. intros caps'.
    specialize (Hk caps'). simpl in Hk. now rewrite <- Nat.add_succ_comm in Hk.
Qed.

Lemma m_complete (r : regex) (i : nat) (s1 s2 : string) :
  matches r i s1 s2 ->
  forall R g caps (kont : cont R),
    (forall caps', kont (i + String.length s1) s2 caps' <> None) ->
    m r g i (s1 ++ s2) caps kont <> None.
Proof.
  induction 1 as [i s2|s2|i|c i s2|k i s1 s2 Ha|r1 r2 i a b s2 _ IH1 _ IH2|r i s1 s2 _ IH];
    intros R g caps kont Hk; simpl.
  - specialize (Hk caps). simpl in Hk. now rewrite Nat.add_0_r in Hk.
  - apply Hk.
  - specialize (Hk caps). simpl in Hk. now rewrite Nat.add_0_r in Hk.
  - rewrite Ascii.eqb_refl. specialize (Hk caps). simpl in Hk.
    now rewrite Nat.add_1_r in Hk.
  - now apply plus_loop_complete.
  - rewrite append_assoc. apply IH1. intros c1. apply IH2. intros c2.
    specialize (Hk c2). now rewrite length_append, Nat.add_assoc in Hk.
  - apply IH. intros c1. apply Hk.
Qed.

Lemma matches_anywhere (r : regex) (i : nat) (s1 s2 : string) :
  matches r i s1 s2 -> anchor_free r = true ->
  forall j t, matches r j s1 t.
Proof.
  induction 1; simpl; intros Hf j t; try discriminate; try (constructor; auto; fail).
  apply andb_true_iff in Hf. destruct Hf. constructor; auto.
Qed.

Lemma strip_eol_matches (r : regex) :
  forall i s, matches (strip_eol r) i s "" -> matches r i s "".
Proof.
  induction r as [| | |c|k|r1 _ r2 IH2|r _]; intros i s H; try exact H.
  assert (Hseq : matches (Seq r1 (strip_eol r2)) i s "" -> matches (Seq r1 r2) i s "").
  { intros Hs. inversion Hs; subst. constructor; auto. }
  destruct r2; try (apply Hseq; exact H).
  simpl in H. rewrite <- (append_nil_r s). constructor.
  - exact H.
  - constructor.
Qed.

Lemma parse_escaped (s : string) : parse_literal (escapeRegExp s) = Some (lit s).
Proof.
  induction s as [|c s IH]; simpl; [reflexivity|].
  destruct (is_syntax_char c) eqn:Hc; simpl.
  - now rewrite Hc, IH.
  - destruct (Ascii.eqb_spec c "\"%char) as [->|_]; [discriminate|].
    now rewrite Hc, IH.
Qed.

Lemma exec_from_sound (r : regex) :
  forall s i c, exec_from r i s = Some c ->
    exists j t,
      m r 1 j t no_caps (fun i' _ caps => Some (set_cap 0 (JS.take (i' - j) t) caps))
      = Some c.
Proof.
  induction s as [|d s IH]; intros i c H; simpl in H.
  - destruct (m r 1 i "" no_caps _) eqn:Hm; [|discriminate].
    injection H as ->. eauto.
  - destruct (m r 1 i (String d s) no_caps _) eqn:Hm.
    + injection H as ->. eauto.
    + eapply IH; eauto.
Qed.

Lemma exec_from_complete (r : regex) (i : nat) (s : string) :
  matches r i s "" -> exec_from r i s <> None.
Proof.
  intros H.
  assert (Hm : m r 1 i s no_caps
                 (fun i' _ caps => Some (set_cap 0 (JS.take (i' - i) s) caps)) <> None).
  { rewrite <- (append_nil_r s) at 1. apply (m_complete _ _ _ _ H). discriminate. }
  destruct s; simpl;
    match goal with
    | |- context [match ?x with Some _ => _ | None => _ end] => destruct x
    end; congruence.
Qed.

(** The text the reference pattern captures has the shape of [reUrl]. *)
Lemma reference_capture_shape (part0 part1 body : string) (re : regex) (mt : captures)
    (url : string) :
  reference_regex part0 part1 = Some re ->
  str_match body re = Some mt ->
  mt 1 = Some url ->
  exists i s2, matches reUrl i url s2.
Proof.
  unfold reference_regex. rewrite !parse_escaped. intros [= <-] Hm H1.
  apply exec_from_sound in Hm. destruct Hm as (j & t & Hm).
  cbn [m] in Hm.
  apply lit_sound in Hm. destruct Hm as (t1 & -> & Hm).
  apply m_sound in Hm. destruct Hm as (u & t2 & c1 & -> & Hu & Hm).
  apply lit_sound in Hm. destruct Hm as (t3 & -> & Hm).
  injection Hm as <-.
  rewrite ngroups_lit in H1.
  unfold set_cap in H1. simpl in H1.
  replace (j + String.length part0 + String.length u - (j + String.length part0))
    with (String.length u) in H1 by lia.
  rewrite take_append in H1. injection H1 as <-.
  eauto.
Qed.

(** Such a text is matched by the anchored [RE_COMMENT_URL]. *)
Lemma comment_url_reparses (i : nat) (url s2 : string) :
  matches reUrl i url s2 -> str_match url RE_COMMENT_URL <> None.
Proof.
  intros H.
  assert (Hfull : matches RE_COMMENT_URL 0 url "").
  { change RE_COMMENT_URL with (Seq Bol (strip_bol RE_COMMENT_URL)).
    change url with ("" ++ url). constructor; [constructor|].
    apply strip_eol_matches.
    eapply matches_anywhere; [exact H | reflexivity]. }
  now apply exec_from_complete.
Qed.

(** C10. Whenever the pattern built from the reference template matches
    the pull-request body, the URL it captures is matched again by the
    anchored [RE_COMMENT_URL]: for every body, template, owner and
    repository, [extractCommentURL] never fails with the "not the correct
    GitHub issue comment URL" error. *)
Theorem extract_never_malformed (prBody referenceStr owner repo : string) :
  extractCommentURL prBody referenceStr owner repo <> inl EMalformedURL.
Proof.
  unfold extractCommentURL.
  destruct (nth_error _ 0) as [part0|]; [|discriminate].
  destruct (nth_error _ 1) as [part1|]; [|discriminate].
  destruct (reference_regex part0 part1) as [re|] eqn:Hre; [|discriminate].
  destruct (str_match prBody re) as [mt|] eqn:Hm; [|discriminate].
  destruct (mt 1) as [url|] eqn:H1; [|discriminate].
  destruct (reference_capture_shape _ _ _ _ _ _ Hre Hm H1) as (i & s2 & Hshape).
  apply comment_url_reparses in Hshape.
  destruct url; [discriminate|].
  destruct (str_match _ RE_COMMENT_URL); [|congruence].
  destruct (_ || _); discriminate.
Qed.

(** ** Computations *)

Lemma step_passed {A} (c : M (Outcome + A)) (k : A -> M Outcome) (a : A) :
  passed c a ->
  result (step c k) = result (k a) /\ trace (step c k) = (trace c ++ trace (k a))%list.
Proof.
  unfold passed, step, bind, result, trace.
  destruct c as [[[o|a']| |] t]; simpl; intros [=]; subst.
  destruct (k a); auto.
Qed.

Lemma step_returned {A} (c : M (Outcome + A)) (k : A -> M Outcome) (o : Outcome) :
  result c = Ret (inl o) ->
  result (step c k) = Ret o /\ trace (step c k) = trace c.
Proof.
  unfold step, bind, result, trace.
  destruct c as [[[o'|a']| |] t]; simpl; intros [=]; subst.
  now rewrite app_nil_r.
Qed.

Lemma untouched_app (t1 t2 : list Event) :
  untouched (t1 ++ t2) <-> untouched t1 /\ untouched t2.
Proof.
  unfold untouched. rewrite filter_app. split.
  - intros H. now apply app_eq_nil in H.
  - intros [-> ->]. reflexivity.
Qed.

(** ** Remediation *)

(** What [_closePR] does, by the answers to its two requests. *)
Lemma closePR_unfold (remote : Api) (this : PRApproval) (reason : string) :
  _closePR remote this reason =
  (Ret tt,
   Info reason :: autoclose_comment this reason ::
   match mutate remote POST (comments_url this) (autoclose_payload this reason) with
   | NetworkError _ => [Info "error closing PR"]
   | Responded r1 =>
       (if status_ok (http_status r1) then []
        else [Info ("errror posting auto-close comment (status "
                      ++ JS.of_nat (http_status r1) ++ ").")])
       ++ close_request this ::
       match mutate remote PATCH (pulls_url this) [("state", "closed")] with
       | NetworkError _ => [Info "error closing PR"]
       | Responded r2 =>
           if status_ok (http_status r2) then []
           else [Info ("errror closing PR #" ++ JS.of_nat (prNumber this) ++ " (status "
                         ++ JS.of_nat (http_status r2) ++ ").")]
       end
   end%list).
Proof.
  unfold _closePR, _send, _request, autoclose_comment, close_request,
    comments_url, autoclose_payload, pulls_url, when, info, emit, try_catch, bind, ret, throw.
  destruct (mutate remote POST _ _) as [e1|r1]; cbn [fst snd app]; [reflexivity|].
  destruct (status_ok (http_status r1));
    destruct (mutate remote PATCH _ _) as [e2|r2]; cbn [fst snd app negb ok status];
    try reflexivity;
    destruct (status_ok (http_status r2)); reflexivity.
Qed.

(** C8, as the code has it. [_closePR] never throws and always returns;
    it always requests the explanatory comment; whatever status that
    request is answered with, the close request follows, and a status
    outside 200 to 299 of either is logged; when the comment request fails
    in transport the close request is not made and the failure is logged;
    a transport failure of the close request is logged as well. *)
Theorem closePR_best_effort (remote : Api) (this : PRApproval) (reason : string) :
  let t := trace (_closePR remote this reason) in
  let post := mutate remote POST (comments_url this) (autoclose_payload this reason) in
  let patch := mutate remote PATCH (pulls_url this) [("state", "closed")] in
  result (_closePR remote this reason) = Ret tt /\
  In (autoclose_comment this reason) t /\
  (forall r, post = Responded r ->
     In (close_request this) t /\
     (status_ok (http_status r) = false ->
      In (Info ("errror posting auto-close comment (status "
                  ++ JS.of_nat (http_status r) ++ ").")) t) /\
     (forall r2, patch = Responded r2 -> status_ok (http_status r2) = false ->
      In (Info ("errror closing PR #" ++ JS.of_nat (prNumber this) ++ " (status "
                  ++ JS.of_nat (http_status r2) ++ ").")) t) /\
     (forall msg, patch = NetworkError msg -> In (Info "error closing PR") t)) /\
  (forall msg, post = NetworkError msg ->
     t = [Info reason; autoclose_comment this reason; Info "error closing PR"]).
Proof.
  cbv zeta. rewrite closePR_unfold. unfold result, trace. cbn [fst snd].
  split; [reflexivity|]. split; [right; left; reflexivity|]. split.
  - intros r ->. repeat split.
    + right; right. apply in_or_app. right. left. reflexivity.
    + intros ->. right; right. left. reflexivity.
    + intros r2 -> ->. right; right. apply in_or_app. right. right. left. reflexivity.
    + intros msg ->. right; right. apply in_or_app. right. right. left. reflexivity.
  - intros msg ->. reflexivity.
Qed.

Lemma closePR_best_effort_witness :
  In (close_request scenario_A)
     (trace (_closePR (widgets_api "open" "write") scenario_A "closed issue")).
Proof.
  destruct (closePR_best_effort (widgets_api "open" "write") scenario_A "closed issue")
    as (_ & _ & H & _).
  exact (proj1 (H _ eq_refl)).
Defined.

(** C8 as stated fails: when the comment request fails in transport, the
    close request is never made. *)
Lemma closePR_skips_close_after_transport_failure :
  ~ In (close_request scenario_A) (trace (_closePR offline_api scenario_A "no reference")).
Proof.
  rewrite closePR_unfold. unfold trace. cbn [snd offline_api mutate].
  intros [H|[H|[H|[]]]]; discriminate H.
Qed.

(** ** The contributor loop *)

Lemma body_of_200 {T} (r : HttpResponse T) : http_status r = 200 -> body_of r = http_json r.
Proof. unfold body_of. now intros ->. Qed.

(** The four ways one iteration can go. *)
Lemma loop_step (remote : Api) (this : PRApproval) (fuel page : nat) :
  (advances remote this page /\
   _isContributor_from remote this (S fuel) page =
   (result (_isContributor_from remote this fuel (S page)),
    page_request this page :: trace (_isContributor_from remote this fuel (S page))))
  \/ (found remote this page /\
      _isContributor_from remote this (S fuel) page = (Ret true, [page_request this page]))
  \/ ((unusable remote this page \/ last_page remote this page) /\
      _isContributor_from remote this (S fuel) page = (Ret false, [page_request this page]))
  \/ (exists msg,
        contributors remote (contributors_url this page) = NetworkError msg /\
        _isContributor_from remote this (S fuel) page =
        (Throw ("error calling GitHub API: " ++ msg), [page_request this page])).
Proof.
  unfold advances, found, unusable, last_page, page_request, contributors_url.
  cbn [_isContributor_from]. unfold _get, _request, emit, bind, ret, throw.
  destruct (contributors remote _) as [msg|r] eqn:E.
  { right; right; right. exists msg. auto. }
  cbn [status data link].
  destruct (Nat.eqb_spec (http_status r) 200) as [H200|Hn].
  2:{ right; right; left. split; [left; eauto|]. destruct (body_of r); reflexivity. }
  rewrite (body_of_200 r H200).
  destruct (http_json r) as [d|] eqn:Hd.
  2:{ right; right; left. split; [|reflexivity].
      left. exists r. split; [reflexivity|]. right. now rewrite body_of_200. }
  destruct (existsb (login_matches this) d) eqn:Hex.
  { right; left. split; [|reflexivity]. exists r, d. auto. }
  destruct (JS.includes (link_or_empty (http_link r)) rel_next) eqn:Hl; cbn [negb].
  - left. split; [exists r, d; auto|].
    destruct (_isContributor_from remote this fuel (S page)) as [res t]. reflexivity.
  - right; right; left. split; [|reflexivity]. right. exists r, d. auto.
Qed.

Lemma loop_advances (remote : Api) (this : PRApproval) (fuel page : nat) :
  advances remote this page ->
  _isContributor_from remote this (S fuel) page =
  (result (_isContributor_from remote this fuel (S page)),
   page_request this page :: trace (_isContributor_from remote this fuel (S page))).
Proof.
  intros (r & d & E & H200 & Hd & Hex & Hl).
  cbn [_isContributor_from]. unfold _get, _request, emit, bind, ret.
  unfold contributors_url in E. rewrite E. cbn [status data link].
  rewrite (body_of_200 r H200), H200, Hd, Hex, Hl. cbn [Nat.eqb negb].
  destruct (_isContributor_from remote this fuel (S page)). reflexivity.
Qed.


Lemma loop_unusable (remote : Api) (this : PRApproval) (fuel page : nat) :
  unusable remote this page ->
  _isContributor_from remote this (S fuel) page = (Ret false, [page_request this page]).
Proof.
  intros (r & E & H).
  cbn [_isContributor_from]. unfold _get, _request, emit, bind, ret.
  unfold contributors_url in E. rewrite E. cbn [status data link].
  destruct H as [H|H].
  - destruct (Nat.eqb_spec (http_status r) 200); [contradiction|].
    destruct (body_of r); reflexivity.
  - rewrite H. destruct (Nat.eqb (http_status r) 200); reflexivity.
Qed.

Lemma loop_stops (remote : Api) (this : PRApproval) (fuel page : nat) :
  ~ advances remote this page ->
  exists res, _isContributor_from remote this (S fuel) page = (res, [page_request this page])
              /\ res <> Running.
Proof.
  intros Hn.
  destruct (loop_step remote this fuel page) as [[H _]|[[_ H]|[[_ H]|(msg & _ & H)]]];
    [contradiction| | |]; rewrite H; eexists; split; try reflexivity; discriminate.
Qed.

(** Pages that advance are walked through one by one. *)
Lemma loop_scan (remote : Api) (this : PRApproval) (n : nat) :
  forall page fuel,
    (forall q, page <= q -> q < page + n -> advances remote this q) ->
    _isContributor_from remote this (n + fuel) page =
    (result (_isContributor_from remote this fuel (page + n)),
     (map (page_request this) (seq page n)
        ++ trace (_isContributor_from remote this fuel (page + n)))%list).
Proof.
  induction n as [|n IH]; intros page fuel H.
  - rewrite Nat.add_0_r. cbn. destruct (_isContributor_from _ _ _ _); reflexivity.
  - cbn [Nat.add]. rewrite loop_advances by (apply H; lia).
    rewrite IH by (intros q H1 H2; apply H; lia).
    unfold result, trace. cbn [fst snd seq map app].
    now rewrite Nat.add_succ_comm.
Qed.


Lemma loop_untouched (remote : Api) (this : PRApproval) (fuel : nat) :
  forall page, untouched (trace (_isContributor_from remote this fuel page)).
Proof.
  induction fuel as [|fuel IH]; intros page; [reflexivity|].
  destruct (loop_step remote this fuel page) as [[_ E]|[[_ E]|[[_ E]|(msg & _ & E)]]];
    rewrite E; try reflexivity.
  unfold trace at 1. cbn [snd]. unfold untouched. cbn. apply IH.
Qed.


(** ** [check], step by step *)

Lemma check_passed (remote : Api) (this : PRApproval) (fuel : nat) :
  passed (contributor_step remote this fuel) tt ->
  result (check remote this fuel) = result (check_reference remote this) /\
  exists t0,
    trace (check remote this fuel) = (t0 ++ trace (check_reference remote this))%list /\
    untouched t0.
Proof.
  intros H. unfold check.
  destruct (step_passed _ (fun _ => check_reference remote this) tt H) as [Hr Ht].
  unfold info, emit, bind at 1. unfold result, trace in *.
  destruct (step _ _) as [res t]. cbn [fst snd] in *. subst.
  split; [reflexivity|].
  eexists (_ :: snd (contributor_step remote this fuel)). split; [reflexivity|].
  unfold untouched. cbn [filter is_mutation].
  unfold contributor_step. destruct (excludeContribs (cfg this)); [|reflexivity].
  unfold info, emit, bind at 1. unfold _isContributor.
  pose proof (loop_untouched remote this fuel 1) as Hu. unfold untouched, trace in Hu.
  destruct (_isContributor_from remote this fuel 1) as [[[|]| |] t]; cbn in *;
    rewrite ?filter_app, ?Hu; reflexivity.
Qed.

Lemma contributor_step_off (remote : Api) (this : PRApproval) (fuel : nat) :
  excludeContribs (cfg this) = false -> passed (contributor_step remote this fuel) tt.
Proof. unfold passed, contributor_step. now intros ->. Qed.


(** ** The contributor gate *)

Lemma gate_reaches (remote : Api) (this : PRApproval) (p fuel : nat) :
  1 <= p -> scanned remote this p -> p <= fuel ->
  _isContributor remote this fuel =
  (result (_isContributor_from remote this (S (fuel - p)) p),
   (page_requests this (p - 1)
      ++ trace (_isContributor_from remote this (S (fuel - p)) p))%list).
Proof.
  intros Hp Hs Hf. unfold _isContributor, page_requests.
  replace fuel with ((p - 1) + S (fuel - p)) at 1 by lia.
  rewrite loop_scan by (intros q H1 H2; apply Hs; lia).
  now replace (1 + (p - 1)) with p by lia.
Qed.



(** ** Termination of the pagination *)

Lemma loop_terminates (remote : Api) (this : PRApproval) (n : nat) :
  forall page fuel,
    ~ advances remote this (page + n) -> n < fuel ->
    result (_isContributor_from remote this fuel page) <> Running /\
    List.length (trace (_isContributor_from remote this fuel page)) <= S n.
Proof.
  induction n as [|n IH]; intros page fuel Hn Hf; (destruct fuel as [|fuel]; [lia|]).
  - rewrite Nat.add_0_r in Hn.
    destruct (loop_stops remote this fuel page Hn) as (res & -> & Hres).
    split; [exact Hres|cbn; lia].
  - destruct (loop_step remote this fuel page) as [[_ E]|[[_ E]|[[_ E]|(msg & _ & E)]]];
      rewrite E; unfold result, trace; cbn [fst snd List.length];
      try (split; [discriminate|lia]).
    rewrite <- Nat.add_succ_comm in Hn.
    destruct (IH (S page) fuel Hn) as [H1 H2]; [lia|].
    unfold result, trace in H1, H2. split; [exact H1|lia].
Qed.

Lemma loop_runs_on (remote : Api) (this : PRApproval) (fuel : nat) :
  forall page,
    (forall q, page <= q -> advances remote this q) ->
    _isContributor_from remote this fuel page
    = (Running, map (page_request this) (seq page fuel)).
Proof.
  induction fuel as [|fuel IH]; intros page H; [reflexivity|].
  rewrite loop_advances by (apply H; lia).
  rewrite IH by (intros q Hq; apply H; lia). reflexivity.
Qed.

(** C9, as the code has it. The loop has no bound of its own. A page
    makes it advance when it answers 200 with data not listing the author
    and its link header has [rel="next"] in it; at a page that does not,
    the loop ends with that request, and a link header that is missing
    or lacks [rel="next"] makes a page such a page. So if page [p] does
    not make it advance, the gate returns or throws after at most [p]
    requests; and if every page makes it advance, the gate is still
    running after any number of iterations, having requested one page
    per iteration. *)
Theorem pagination_terminates (remote : Api) (this : PRApproval) :
  (forall p fuel, 1 <= p -> ~ advances remote this p -> p <= fuel ->
     result (_isContributor remote this fuel) <> Running /\
     List.length (trace (_isContributor remote this fuel)) <= p) /\
  (forall page fuel, ~ advances remote this page ->
     exists res, _isContributor_from remote this (S fuel) page
                 = (res, [page_request this page]) /\ res <> Running) /\
  (forall page r,
     contributors remote (contributors_url this page) = Responded r ->
     JS.includes (link_or_empty (http_link r)) rel_next = false ->
     ~ advances remote this page) /\
  ((forall q, 1 <= q -> advances remote this q) ->
   forall fuel, _isContributor remote this fuel = (Running, page_requests this fuel)).
Proof.
  split; [|split; [|split]].
  - intros p fuel Hp Hn Hf. unfold _isContributor.
    destruct p as [|k]; [lia|].
    apply loop_terminates; [exact Hn|lia].
  - intros page fuel Hn. now apply loop_stops.
  - intros page r E Hl (r' & d & E' & _ & _ & _ & Hl').
    rewrite E in E'. injection E' as <-. congruence.
  - intros H fuel. apply loop_runs_on. exact H.
Qed.

Lemma pagination_terminates_witness :
  result (_isContributor (widgets_api "open" "write") (bob_pr valid_body) 1) <> Running /\
  List.length (trace (_isContributor (widgets_api "open" "write") (bob_pr valid_body) 1)) <= 1.
Proof.
  assert (Hn : ~ advances (widgets_api "open" "write") (bob_pr valid_body) 1).
  { intros (r & d & E & _ & _ & _ & Hl). injection E as <-. discriminate Hl. }
  exact (proj1 (pagination_terminates (widgets_api "open" "write") (bob_pr valid_body))
           1 1 (le_n 1) Hn (le_n 1)).
Defined.

Lemma endless_loop_runs (fuel : nat) :
  forall page, result (_isContributor_from endless_api (bob_pr valid_body) fuel page) = Running.
Proof.
  induction fuel as [|fuel IH]; intros page; [reflexivity|].
  rewrite loop_advances; [apply IH|].
  eexists _, _. split; [reflexivity|]. repeat split.
Qed.

(** C9 as stated fails: against a server whose every page advertises a
    next page, no amount of fuel lets the gate finish. *)
Lemma pagination_may_not_terminate :
  ~ exists fuel, result (_isContributor endless_api (bob_pr valid_body) fuel) <> Running.
Proof.
  intros [fuel H]. apply H. apply endless_loop_runs.
Qed.

(** ** The steps of [check] *)

Lemma close_unfold {A} (remote : Api) (this : PRApproval) (reason : string) :
  @close remote this A reason =
  (Ret (inl (Closed reason)), trace (_closePR remote this reason)).
Proof.
  unfold close. rewrite closePR_unfold. unfold bind, ret, trace. cbn [fst snd].
  now rewrite app_nil_r.
Qed.

Lemma close_posts (remote : Api) (this : PRApproval) (reason : string) :
  In (autoclose_comment this reason) (trace (_closePR remote this reason)).
Proof. rewrite closePR_unfold. right. left. reflexivity. Qed.

Lemma extract_step_untouched (this : PRApproval) : untouched (trace (extract_step this)).
Proof. unfold extract_step. destruct (extractCommentURL _ _ _ _); reflexivity. Qed.

Lemma comment_step_closed (remote : Api) (this : PRApproval) (parsed : Parsed)
    (res : HttpResponse Comment) :
  issue_comment remote (comment_url this parsed) = Responded res ->
  http_status res = 404 \/ body_of res = None ->
  comment_step remote this parsed =
  (Ret (inl (Closed not_found_reason)),
   Fetch GET (comment_url this parsed) None :: trace (_closePR remote this not_found_reason)).
Proof.
  unfold comment_url, not_found_reason. intros E H.
  unfold comment_step, _get, _request. rewrite E.
  unfold emit, bind at 1 2. unfold ret at 1. cbn [status data].
  destruct (body_of res) as [d|] eqn:Hd.
  - destruct H as [H|H]; [|discriminate]. rewrite H. cbn [Nat.eqb].
    rewrite close_unfold. reflexivity.
  - rewrite close_unfold. reflexivity.
Qed.

Lemma comment_step_failed (remote : Api) (this : PRApproval) (parsed : Parsed)
    (res : HttpResponse Comment) :
  issue_comment remote (comment_url this parsed) = Responded res ->
  http_status res <> 404 -> body_of res <> None -> http_status res <> 200 ->
  let msg := "GitHub API returned status " ++ JS.of_nat (http_status res)
               ++ " while fetching comment." in
  comment_step remote this parsed =
  (Ret (inl (Failed msg)), [Fetch GET (comment_url this parsed) None; SetFailed msg]).
Proof.
  unfold comment_url. intros E H404 Hd H200.
  unfold comment_step, _get, _request. rewrite E.
  unfold emit, bind at 1 2. unfold ret at 1. cbn [status data].
  destruct (body_of res) as [d|]; [|contradiction].
  destruct (Nat.eqb_spec (http_status res) 404); [contradiction|].
  destruct (Nat.eqb_spec (http_status res) 200); [contradiction|].
  reflexivity.
Qed.

Lemma comment_step_continue (remote : Api) (this : PRApproval) (parsed : Parsed)
    (res : HttpResponse Comment) (d : Comment) :
  issue_comment remote (comment_url this parsed) = Responded res ->
  http_status res = 200 -> http_json res = Some d ->
  comment_step remote this parsed =
  (Ret (inr d), [Fetch GET (comment_url this parsed) None]).
Proof.
  unfold comment_url. intros E H200 Hd.
  unfold comment_step, _get, _request. rewrite E.
  unfold emit, bind at 1 2. unfold ret at 1. cbn [status data].
  rewrite (body_of_200 res H200), H200, Hd. reflexivity.
Qed.

Lemma comment_step_offline (remote : Api) (this : PRApproval) (parsed : Parsed)
    (msg : string) :
  issue_comment remote (comment_url this parsed) = NetworkError msg ->
  exists m, comment_step remote this parsed =
            (Ret (inl (Failed m)), [Fetch GET (comment_url this parsed) None; SetFailed m]).
Proof.
  unfold comment_url. intros E.
  unfold comment_step, _get, _request. rewrite E. eexists. reflexivity.
Qed.

Lemma comment_step_passed_inv (remote : Api) (this : PRApproval) (parsed : Parsed)
    (comment : Comment) :
  passed (comment_step remote this parsed) comment ->
  trace (comment_step remote this parsed) = [Fetch GET (comment_url this parsed) None] /\
  exists res,
    issue_comment remote (comment_url this parsed) = Responded res /\
    http_status res = 200 /\ http_json res = Some comment.
Proof.
  unfold passed. intros H.
  destruct (issue_comment remote (comment_url this parsed)) as [msg|res] eqn:E.
  { destruct (comment_step_offline _ _ _ _ E) as [m Hm]. rewrite Hm in H. discriminate. }
  destruct (Nat.eq_dec (http_status res) 404) as [H404|H404].
  { rewrite (comment_step_closed _ _ _ _ E (or_introl H404)) in H. discriminate. }
  destruct (body_of res) as [d|] eqn:Hd.
  2:{ rewrite (comment_step_closed _ _ _ _ E (or_intror Hd)) in H. discriminate. }
  destruct (Nat.eq_dec (http_status res) 200) as [H200|H200].
  2:{ rewrite (comment_step_failed _ _ _ _ E H404) in H; [discriminate|congruence|assumption]. }
  rewrite (body_of_200 res H200) in Hd.
  rewrite (comment_step_continue _ _ _ _ _ E H200 Hd) in H |- *.
  injection H as ->. split; [reflexivity|]. exists res. auto.
Qed.

Lemma issue_step_closed (remote : Api) (this : PRApproval) (comment : Comment)
    (res : HttpResponse Issue) (i : Issue) :
  issue remote (issue_url comment) = Responded res ->
  http_status res = 200 -> http_json res = Some i -> issue_state i <> "open" ->
  issue_step remote this comment =
  (Ret (inl (Closed issue_closed_reason)),
   Fetch GET (issue_url comment) None :: trace (_closePR remote this issue_closed_reason)).
Proof.
  unfold issue_closed_reason. intros E H200 Hd Hs.
  unfold issue_step, _get, _request. rewrite E.
  unfold emit, bind at 1 2. unfold ret at 1. cbn [status data].
  rewrite (body_of_200 res H200), H200, Hd. cbn [Nat.eqb].
  destruct (String.eqb_spec (issue_state i) "open"); [contradiction|]. cbn [negb].
  rewrite close_unfold. reflexivity.
Qed.

Lemma issue_step_failed (remote : Api) (this : PRApproval) (comment : Comment)
    (res : HttpResponse Issue) :
  issue remote (issue_url comment) = Responded res ->
  http_status res <> 200 \/ body_of res = None ->
  let msg := "error fetching issue (status " ++ JS.of_nat (http_status res) ++ ")." in
  issue_step remote this comment =
  (Ret (inl (Failed msg)), [Fetch GET (issue_url comment) None; SetFailed msg]).
Proof.
  intros E H.
  unfold issue_step, _get, _request. rewrite E.
  unfold emit, bind at 1 2. unfold ret at 1. cbn [status data].
  destruct H as [H|H].
  - destruct (Nat.eqb_spec (http_status res) 200); [contradiction|].
    destruct (body_of res); reflexivity.
  - rewrite H. destruct (Nat.eqb (http_status res) 200); reflexivity.
Qed.

Lemma issue_step_passed_inv (remote : Api) (this : PRApproval) (comment : Comment) :
  passed (issue_step remote this comment) tt ->
  trace (issue_step remote this comment) = [Fetch GET (issue_url comment) None].
Proof.
  unfold passed. intros H.
  destruct (issue remote (issue_url comment)) as [msg|res] eqn:E.
  { revert H. unfold issue_step, _get, _request. rewrite E. intros [=]. }
  destruct (Nat.eq_dec (http_status res) 200) as [H200|H200].
  2:{ rewrite (issue_step_failed _ this _ _ E (or_introl H200)) in H. discriminate. }
  destruct (http_json res) as [i|] eqn:Hd.
  2:{ rewrite (issue_step_failed _ this _ _ E) in H; [discriminate|].
      right. now rewrite body_of_200. }
  destruct (String.eqb_spec (issue_state i) "open") as [Hs|Hs].
  2:{ rewrite (issue_step_closed _ this _ _ _ E H200 Hd Hs) in H. discriminate. }
  unfold issue_step, _get, _request. rewrite E.
  unfold emit, bind at 1 2. unfold ret at 1. cbn [status data].
  rewrite (body_of_200 res H200), H200, Hd, Hs. reflexivity.
Qed.

Lemma phrase_step_unfold (remote : Api) (this : PRApproval) (comment : Comment) :
  phrase_step remote this comment =
  if body_includes this comment then (Ret (inr tt), [])
  else (Ret (inl (Closed (phrase_reason (expected this)))),
        trace (_closePR remote this (phrase_reason (expected this)))).
Proof.
  unfold phrase_step, phrase_reason.
  destruct (body_includes this comment); cbn [negb]; [reflexivity|].
  now rewrite close_unfold.
Qed.

Lemma approver_step_passed_inv (comment : Comment) (approver : string) :
  passed (approver_step comment) approver ->
  trace (approver_step comment) = [] /\ comment_user_login comment = Some approver.
Proof.
  unfold passed, approver_step.
  destruct (comment_user_login comment) as [[|c a]|]; intros H; try discriminate H.
  injection H as <-. auto.
Qed.

Lemma permission_step_unfold (remote : Api) (this : PRApproval) (approver : string)
    (res : HttpResponse Permission) (d : Permission) :
  collaborator_permission remote (permission_url this approver) = Responded res ->
  http_status res = 200 -> http_json res = Some d ->
  permission_step remote this approver =
  if allowed (permission d) then (Ret (inr tt), [Fetch GET (permission_url this approver) None])
  else (Ret (inl (Closed (permission_reason approver))),
        Fetch GET (permission_url this approver) None
          :: trace (_closePR remote this (permission_reason approver))).
Proof.
  unfold permission_url, permission_reason. intros E H200 Hd.
  unfold permission_step, _get, _request. rewrite E.
  unfold emit, bind at 1 2. unfold ret at 1. cbn [status data].
  rewrite (body_of_200 res H200), H200, Hd. cbn [Nat.eqb].
  destruct (allowed (permission d)); cbn [negb]; [reflexivity|].
  rewrite close_unfold. reflexivity.
Qed.

(** What [permission_step] can end with. *)
Lemma permission_step_results (remote : Api) (this : PRApproval) (approver : string) :
  result (permission_step remote this approver) = Ret (inr tt) \/
  result (permission_step remote this approver) = Ret (inl (Closed (permission_reason approver))) \/
  exists msg, result (permission_step remote this approver) = Ret (inl (Failed msg)).
Proof.
  unfold permission_reason.
  remember (permission_step remote this approver) as X eqn:HX.
  unfold permission_step, _get, _request in HX.
  destruct (collaborator_permission remote _) as [msg|res].
  { right; right. subst X. eexists. reflexivity. }
  unfold emit, bind at 1 2 in HX. unfold ret at 1 in HX. cbn [status data] in HX.
  destruct (Nat.eqb (http_status res) 200);
    [|right; right; subst X; destruct (body_of res); eexists; reflexivity].
  destruct (body_of res) as [d|]; [|right; right; subst X; eexists; reflexivity].
  destruct (negb _); [|left; subst X; reflexivity].
  right; left. rewrite close_unfold in HX. subst X. reflexivity.
Qed.

(** ** Getting to a step *)

Lemma reaches_step {A} (c : M Outcome) (s : M (Outcome + A)) (k : A -> M Outcome) (a : A) :
  reaches c (step s k) -> passed s a -> untouched (trace s) -> reaches c (k a).
Proof.
  intros (Hr & t0 & Ht & Hu) Hp Hs.
  destruct (step_passed s k a Hp) as [Hr' Ht'].
  split; [congruence|].
  exists (t0 ++ trace s)%list. split.
  - now rewrite Ht, Ht', app_assoc.
  - apply untouched_app. auto.
Qed.

Lemma reaches_returned {A} (c : M Outcome) (s : M (Outcome + A)) (k : A -> M Outcome)
    (o : Outcome) :
  reaches c (step s k) -> result s = Ret (inl o) ->
  result c = Ret o /\ exists t0, trace c = (t0 ++ trace s)%list /\ untouched t0.
Proof.
  intros (Hr & t0 & Ht & Hu) Hs.
  destruct (step_returned s k o Hs) as [Hr' Ht'].
  split; [congruence|]. exists t0. now rewrite Ht, Ht'.
Qed.

Lemma reach_comment (remote : Api) (this : PRApproval) (fuel : nat) (parsed : Parsed) :
  passed (contributor_step remote this fuel) tt ->
  passed (extract_step this) parsed ->
  reaches (check remote this fuel) (from_comment remote this parsed).
Proof.
  intros H1 H2.
  apply (reaches_step _ (extract_step this) (from_comment remote this) parsed);
    [|assumption|apply extract_step_untouched].
  destruct (check_passed remote this fuel H1) as (Hr & t0 & Ht & Hu).
  split; [exact Hr|]. exists t0. auto.
Qed.

Lemma reach_issue (remote : Api) (this : PRApproval) (fuel : nat) (parsed : Parsed)
    (comment : Comment) :
  passed (contributor_step remote this fuel) tt ->
  passed (extract_step this) parsed ->
  passed (comment_step remote this parsed) comment ->
  reaches (check remote this fuel) (from_issue remote this comment).
Proof.
  intros H1 H2 H3.
  apply (reaches_step _ (comment_step remote this parsed) (from_issue remote this) comment);
    [now apply reach_comment|assumption|].
  destruct (comment_step_passed_inv _ _ _ _ H3) as [-> _]. reflexivity.
Qed.

Lemma reach_phrase (remote : Api) (this : PRApproval) (fuel : nat) (parsed : Parsed)
    (comment : Comment) :
  passed (contributor_step remote this fuel) tt ->
  passed (extract_step this) parsed ->
  passed (comment_step remote this parsed) comment ->
  passed (issue_step remote this comment) tt ->
  reaches (check remote this fuel) (from_phrase remote this comment).
Proof.
  intros H1 H2 H3 H4.
  apply (reaches_step _ (issue_step remote this comment)
           (fun _ => from_phrase remote this comment) tt);
    [now apply (reach_issue _ _ _ parsed)|assumption|].
  rewrite (issue_step_passed_inv _ _ _ H4). reflexivity.
Qed.

Lemma reach_permission (remote : Api) (this : PRApproval) (fuel : nat) (parsed : Parsed)
    (comment : Comment) (approver : string) :
  passed (contributor_step remote this fuel) tt ->
  passed (extract_step this) parsed ->
  passed (comment_step remote this parsed) comment ->
  passed (issue_step remote this comment) tt ->
  passed (phrase_step remote this comment) tt ->
  passed (approver_step comment) approver ->
  reaches (check remote this fuel) (from_permission remote this approver).
Proof.
  intros H1 H2 H3 H4 H5 H6.
  apply (reaches_step _ (approver_step comment) (from_permission remote this) approver);
    [|assumption|].
  - apply (reaches_step _ (phrase_step remote this comment)
             (fun _ => from_approver remote this comment) tt);
      [now apply (reach_phrase _ _ _ parsed)|assumption|].
    unfold passed in H5. rewrite phrase_step_unfold in H5 |- *.
    destruct (body_includes this comment); [reflexivity|discriminate].
  - destruct (approver_step_passed_inv _ _ H6) as [-> _]. reflexivity.
Qed.

Lemma in_reached (e : Event) (t0 t : list Event) : In e t -> In e (t0 ++ t).
Proof. intros H. apply in_or_app. now right. Qed.

(** ** Outcomes and effects agree *)

Lemma unreported_app (t1 t2 : list Event) :
  unreported (t1 ++ t2) <-> unreported t1 /\ unreported t2.
Proof.
  unfold unreported. rewrite filter_app. split.
  - intros H. now apply app_eq_nil in H.
  - intros [-> ->]. reflexivity.
Qed.

Lemma closePR_unreported (remote : Api) (this : PRApproval) (reason : string) :
  unreported (trace (_closePR remote this reason)).
Proof.
  rewrite closePR_unfold. unfold trace, unreported, close_request. cbn [snd filter is_failure].
  destruct (mutate remote POST _ _) as [e1|r1]; [reflexivity|].
  rewrite filter_app.
  destruct (status_ok (http_status r1));
    destruct (mutate remote PATCH _ _) as [e2|r2]; try reflexivity;
    destruct (status_ok (http_status r2)); reflexivity.
Qed.

Lemma loop_unreported (remote : Api) (this : PRApproval) (fuel : nat) :
  forall page, unreported (trace (_isContributor_from remote this fuel page)).
Proof.
  induction fuel as [|fuel IH]; intros page; [reflexivity|].
  destruct (loop_step remote this fuel page) as [[_ E]|[[_ E]|[[_ E]|(msg & _ & E)]]];
    rewrite E; try reflexivity.
  unfold trace at 1. cbn [snd]. unfold unreported. cbn. apply IH.
Qed.

Lemma tagged_after (this : PRApproval) (t0 t : list Event) (r : Res Outcome) :
  untouched t0 -> unreported t0 -> tagged this r t -> tagged this r (t0 ++ t).
Proof.
  intros Hu Hr. unfold tagged.
  destruct r as [[| |reason|msg]|e|]; try tauto;
    rewrite ?untouched_app, ?unreported_app, ?in_app_iff; tauto.
Qed.

Lemma step_tagged_compose {A} (this : PRApproval) (c : M (Outcome + A))
    (k : A -> M Outcome) :
  step_tagged this c ->
  (forall a, tagged this (result (k a)) (trace (k a))) ->
  tagged this (result (step c k)) (trace (step c k)).
Proof.
  unfold step_tagged. intros Hc Hk.
  destruct c as [[[o|a]| |] t] eqn:E; unfold result, trace in Hc; cbn [fst snd] in Hc.
  - destruct (step_returned (Ret (inl o), t) k o eq_refl) as [-> ->]. exact Hc.
  - destruct (step_passed (Ret (inr a), t) k a eq_refl) as [-> ->].
    apply tagged_after; [apply Hc|apply Hc|apply Hk].
  - contradiction.
  - exact Hc.
Qed.

Lemma close_tagged {A} (remote : Api) (this : PRApproval) (reason : string)
    (t0 : list Event) :
  untouched t0 -> unreported t0 ->
  @step_tagged A this (Ret (inl (Closed reason)), (t0 ++ trace (_closePR remote this reason))%list).
Proof.
  intros Hu Hr. unfold step_tagged, result, trace. cbn [fst snd tagged].
  split.
  - apply in_reached. apply close_posts.
  - apply unreported_app. split; [exact Hr|apply closePR_unreported].
Qed.

Lemma contributor_step_tagged (remote : Api) (this : PRApproval) (fuel : nat) :
  step_tagged this (contributor_step remote this fuel).
Proof.
  unfold contributor_step.
  destruct (excludeContribs (cfg this)); [|split; reflexivity].
  pose proof (loop_untouched remote this fuel 1) as Hu.
  pose proof (loop_unreported remote this fuel 1) as Hr.
  unfold _isContributor, trace in *. unfold untouched, unreported in *.
  destruct (_isContributor_from remote this fuel 1) as [[[|]|e|] t];
    unfold step_tagged, result, trace; cbn in *;
    unfold untouched, unreported; cbn [filter is_mutation is_failure];
    rewrite ?filter_app, ?Hu, ?Hr; repeat split; try reflexivity.
  right. apply in_or_app. right. now left.
Qed.

Lemma extract_step_tagged (this : PRApproval) : step_tagged this (extract_step this).
Proof.
  unfold extract_step, step_tagged.
  destruct (extractCommentURL _ _ _ _); cbn; [split; [now left|reflexivity]|split; reflexivity].
Qed.

Lemma comment_step_tagged (remote : Api) (this : PRApproval) (parsed : Parsed) :
  step_tagged this (comment_step remote this parsed).
Proof.
  destruct (issue_comment remote (comment_url this parsed)) as [msg|res] eqn:E.
  { destruct (comment_step_offline _ _ _ _ E) as [m ->].
    split; [right; now left|reflexivity]. }
  destruct (Nat.eq_dec (http_status res) 404) as [H404|H404].
  { rewrite (comment_step_closed _ _ _ _ E (or_introl H404)).
    now apply (close_tagged remote this _ [_]). }
  destruct (body_of res) as [d|] eqn:Hd.
  2:{ rewrite (comment_step_closed _ _ _ _ E (or_intror Hd)).
      now apply (close_tagged remote this _ [_]). }
  destruct (Nat.eq_dec (http_status res) 200) as [H200|H200].
  2:{ rewrite (comment_step_failed _ _ _ _ E H404) by (congruence || assumption).
      split; [right; now left|reflexivity]. }
  rewrite (body_of_200 res H200) in Hd.
  rewrite (comment_step_continue _ _ _ _ _ E H200 Hd). split; reflexivity.
Qed.

Lemma issue_step_tagged (remote : Api) (this : PRApproval) (comment : Comment) :
  step_tagged this (issue_step remote this comment).
Proof.
  destruct (issue remote (issue_url comment)) as [msg|res] eqn:E.
  { unfold issue_step, _get, _request. rewrite E. split; [right; now left|reflexivity]. }
  destruct (Nat.eq_dec (http_status res) 200) as [H200|H200].
  2:{ rewrite (issue_step_failed _ this _ _ E (or_introl H200)).
      split; [right; now left|reflexivity]. }
  destruct (http_json res) as [i|] eqn:Hd.
  2:{ rewrite (issue_step_failed _ this _ _ E) by (right; now rewrite body_of_200).
      split; [right; now left|reflexivity]. }
  destruct (String.eqb_spec (issue_state i) "open") as [Hs|Hs].
  2:{ rewrite (issue_step_closed _ this _ _ _ E H200 Hd Hs).
      now apply (close_tagged remote this _ [_]). }
  unfold issue_step, _get, _request. rewrite E.
  unfold emit, bind at 1 2. unfold ret at 1. cbn [status data].
  rewrite (body_of_200 res H200), H200, Hd, Hs. split; reflexivity.
Qed.

Lemma phrase_step_tagged (remote : Api) (this : PRApproval) (comment : Comment) :
  step_tagged this (phrase_step remote this comment).
Proof.
  rewrite phrase_step_unfold. destruct (body_includes this comment); [split; reflexivity|].
  now apply (close_tagged remote this _ []).
Qed.

Lemma approver_step_tagged (this : PRApproval) (comment : Comment) :
  step_tagged this (approver_step comment).
Proof.
  unfold approver_step, step_tagged.
  destruct (comment_user_login comment) as [[|c a]|]; cbn;
    try (split; [now left|reflexivity]); split; reflexivity.
Qed.

Lemma permission_step_tagged (remote : Api) (this : PRApproval) (approver : string) :
  step_tagged this (permission_step remote this approver).
Proof.
  destruct (collaborator_permission remote (permission_url this approver)) as [msg|res] eqn:E.
  { unfold permission_url in E. unfold permission_step, _get, _request. rewrite E.
    split; [right; now left|reflexivity]. }
  destruct (Nat.eq_dec (http_status res) 200) as [H200|H200].
  - destruct (http_json res) as [d|] eqn:Hd.
    + rewrite (permission_step_unfold _ _ _ _ _ E H200 Hd).
      destruct (allowed (permission d)); [split; reflexivity|].
      now apply (close_tagged remote this _ [_]).
    + unfold permission_url in E. unfold permission_step, _get, _request. rewrite E.
      unfold emit, bind at 1 2. unfold ret at 1. cbn [status data].
      rewrite (body_of_200 res H200), H200, Hd. split; [right; now left|reflexivity].
  - unfold permission_url in E. unfold permission_step, _get, _request. rewrite E.
    unfold emit, bind at 1 2. unfold ret at 1. cbn [status data].
    destruct (Nat.eqb_spec (http_status res) 200); [contradiction|].
    destruct (body_of res); split; try (right; now left); reflexivity.
Qed.

(** Whatever the server answers, [check] does not throw, and its outcome
    and its effects agree: it ends Failed only after [core.setFailed] and
    without having posted or closed anything, Closed only after asking for
    the explanatory comment, and Approved or Skipped without either. *)
Lemma check_tagged (remote : Api) (this : PRApproval) (fuel : nat) :
  tagged this (result (check remote this fuel)) (trace (check remote this fuel)).
Proof.
  assert (H : tagged this
                (result (step (contributor_step remote this fuel)
                           (fun _ => check_reference remote this)))
                (trace (step (contributor_step remote this fuel)
                          (fun _ => check_reference remote this)))).
  { apply step_tagged_compose; [apply contributor_step_tagged|]. intros _.
    apply step_tagged_compose; [apply extract_step_tagged|]. intros parsed.
    apply step_tagged_compose; [apply comment_step_tagged|]. intros comment.
    apply step_tagged_compose; [apply issue_step_tagged|]. intros _.
    apply step_tagged_compose; [apply phrase_step_tagged|]. intros _.
    apply step_tagged_compose; [apply approver_step_tagged|]. intros approver.
    apply step_tagged_compose; [apply permission_step_tagged|]. intros _.
    split; reflexivity. }
  unfold check, info, emit, bind at 1. unfold result, trace in *.
  destruct (step _ _) as [r t]. cbn [fst snd] in *.
  now apply (tagged_after this [_]).
Qed.

Lemma check_never_throws (remote : Api) (this : PRApproval) (fuel : nat) (e : string) :
  result (check remote this fuel) <> Throw e.
Proof.
  intros H. pose proof (check_tagged remote this fuel) as Ht. now rewrite H in Ht.
Qed.

(** Nothing reaches the handler of [main]. *)
Lemma main_is_run (remote : Api) (env : Env) (fuel : nat) :
  main remote env fuel = run remote env fuel.
Proof.
  unfold main, try_catch.
  destruct (run remote env fuel) as [[o|e|] t] eqn:E; try reflexivity.
  exfalso. revert E. unfold run.
  destruct (GITHUB_EVENT_PATH env) as [[|c path]|]; try discriminate.
  destruct (read_event env _) as [err|[pr|]]; try discriminate.
  destruct (String.eqb _ ""); [discriminate|].
  destruct (String.eqb _ _); [discriminate|].
  unfold validateConfig. destruct (config_error _); [discriminate|].
  unfold ret, bind.
  match goal with
  | |- context [check ?r ?th ?f] =>
      pose proof (check_never_throws r th f e) as Hn; destruct (check r th f) as [res t']
  end.
  unfold result in Hn. cbn [fst] in Hn. intros [= -> _]. now apply Hn.
Qed.

(** ** Remediation inside [check] *)

Lemma closePR_remediated (remote : Api) (this : PRApproval) (reason : string) :
  remediated remote this reason (trace (_closePR remote this reason)).
Proof.
  unfold remediated. rewrite closePR_unfold.
  unfold trace, autoclose_comment, close_request, comments_url, autoclose_payload, pulls_url.
  cbn [snd filter is_mutation].
  destruct (mutate remote POST _ _) as [e1|r1]; [reflexivity|].
  rewrite filter_app.
  destruct (status_ok (http_status r1));
    destruct (mutate remote PATCH _ _) as [e2|r2]; try reflexivity;
    destruct (status_ok (http_status r2)); reflexivity.
Qed.

Lemma remediated_after (remote : Api) (this : PRApproval) (reason : string)
    (t0 : list Event) :
  untouched t0 ->
  remediated remote this reason (t0 ++ trace (_closePR remote this reason)).
Proof.
  intros Hu. unfold remediated. rewrite filter_app. unfold untouched in Hu. rewrite Hu.
  apply closePR_remediated.
Qed.

Lemma remediated_after_get (remote : Api) (this : PRApproval) (reason url : string)
    (t0 : list Event) :
  untouched t0 ->
  remediated remote this reason
    (t0 ++ Fetch GET url None :: trace (_closePR remote this reason)).
Proof.
  intros Hu.
  change (t0 ++ Fetch GET url None :: trace (_closePR remote this reason))%list
    with (t0 ++ [Fetch GET url None] ++ trace (_closePR remote this reason))%list.
  rewrite app_assoc. apply remediated_after. apply untouched_app. split; [exact Hu|reflexivity].
Qed.

(** ** Outcomes of the verification steps *)

(** C2. Once the reference is extracted, if the comment request is
    answered with status 404 or without a decoded body, [check] ends
    Closed with the reason "The referenced PR approval comment was not
    found." and the remediation runs: the explanatory comment is
    requested and then the close request (the latter unless the comment
    request failed in transport), and [core.setFailed] is not called; if
    it is answered with a body and a status that is neither 404 nor 200,
    [check] ends Failed, the failure is reported with [core.setFailed]
    and neither a comment nor a close is requested. *)
Theorem comment_fetch_outcome (remote : Api) (this : PRApproval) (fuel : nat)
    (parsed : Parsed) (res : HttpResponse Comment) :
  passed (contributor_step remote this fuel) tt ->
  passed (extract_step this) parsed ->
  issue_comment remote (comment_url this parsed) = Responded res ->
  (http_status res = 404 \/ body_of res = None ->
   result (check remote this fuel) = Ret (Closed not_found_reason) /\
   In (autoclose_comment this not_found_reason) (trace (check remote this fuel)) /\
   remediated remote this not_found_reason (trace (check remote this fuel)) /\
   unreported (trace (check remote this fuel))) /\
  (http_status res <> 404 -> body_of res <> None -> http_status res <> 200 ->
   result (check remote this fuel)
   = Ret (Failed ("GitHub API returned status " ++ JS.of_nat (http_status res)
                    ++ " while fetching comment.")) /\
   In (SetFailed ("GitHub API returned status " ++ JS.of_nat (http_status res)
                    ++ " while fetching comment."))
      (trace (check remote this fuel)) /\
   untouched (trace (check remote this fuel))).
Proof.
  intros H1 H2 E.
  pose proof (reach_comment remote this fuel parsed H1 H2) as Hreach.
  unfold from_comment in Hreach. split.
  - intros H.
    pose proof (comment_step_closed remote this parsed res E H) as Hs.
    destruct (reaches_returned _ _ _ (Closed not_found_reason) Hreach) as (Hr & t0 & Ht & Hu).
    { now rewrite Hs. }
    split; [exact Hr|]. split; [|split].
    + rewrite Ht, Hs. apply in_reached. right. apply close_posts.
    + rewrite Ht, Hs. now apply remediated_after_get.
    + pose proof (check_tagged remote this fuel) as Htag. rewrite Hr in Htag. apply Htag.
  - intros H404 Hd H200.
    pose proof (comment_step_failed remote this parsed res E H404 Hd H200) as Hs.
    cbv zeta in Hs.
    destruct (reaches_returned _ _ _ _ Hreach (f_equal fst Hs)) as (Hr & t0 & Ht & Hu).
    split; [exact Hr|]. split.
    + rewrite Ht, Hs. apply in_reached. right. now left.
    + rewrite Ht, Hs. apply untouched_app. split; [exact Hu|reflexivity].
Qed.

(** C6. Once the comment is fetched, if its issue is answered with status
    200 and data whose state is not "open", [check] ends Closed with the
    reason "The referenced PR approval comment issue is closed." and the
    remediation runs (the explanatory comment, then the close request
    unless the comment request failed in transport; no [core.setFailed]),
    whatever the comment says and whoever wrote it; if the issue is
    answered with another status or without data, [check] ends Failed,
    the failure is reported with [core.setFailed], and neither a comment
    nor a close is requested. *)
Theorem issue_state_outcome (remote : Api) (this : PRApproval) (fuel : nat)
    (parsed : Parsed) (comment : Comment) (res : HttpResponse Issue) :
  passed (contributor_step remote this fuel) tt ->
  passed (extract_step this) parsed ->
  passed (comment_step remote this parsed) comment ->
  issue remote (issue_url comment) = Responded res ->
  (forall i, http_status res = 200 -> http_json res = Some i -> issue_state i <> "open" ->
   result (check remote this fuel) = Ret (Closed issue_closed_reason) /\
   In (autoclose_comment this issue_closed_reason) (trace (check remote this fuel)) /\
   remediated remote this issue_closed_reason (trace (check remote this fuel)) /\
   unreported (trace (check remote this fuel))) /\
  (http_status res <> 200 \/ body_of res = None ->
   result (check remote this fuel)
   = Ret (Failed ("error fetching issue (status " ++ JS.of_nat (http_status res) ++ ").")) /\
   In (SetFailed ("error fetching issue (status " ++ JS.of_nat (http_status res) ++ ")."))
      (trace (check remote this fuel)) /\
   untouched (trace (check remote this fuel))).
Proof.
  intros H1 H2 H3 E.
  pose proof (reach_issue remote this fuel parsed comment H1 H2 H3) as Hreach.
  unfold from_issue in Hreach. split.
  - intros i H200 Hd Hstate.
    pose proof (issue_step_closed remote this comment res i E H200 Hd Hstate) as Hs.
    destruct (reaches_returned _ _ _ (Closed issue_closed_reason) Hreach)
      as (Hr & t0 & Ht & Hu).
    { now rewrite Hs. }
    split; [exact Hr|]. split; [|split].
    + rewrite Ht, Hs. apply in_reached. right. apply close_posts.
    + rewrite Ht, Hs. now apply remediated_after_get.
    + pose proof (check_tagged remote this fuel) as Htag. rewrite Hr in Htag. apply Htag.
  - intros H.
    pose proof (issue_step_failed remote this comment res E H) as Hs. cbv zeta in Hs.
    destruct (reaches_returned _ _ _ _ Hreach (f_equal fst Hs)) as (Hr & t0 & Ht & Hu).
    split; [exact Hr|]. split.
    + rewrite Ht, Hs. apply in_reached. right. now left.
    + rewrite Ht, Hs. apply untouched_app. split; [exact Hu|reflexivity].
Qed.

Lemma allowed_iff (p : string) : allowed p = true <-> p = "write" \/ p = "admin".
Proof.
  unfold allowed, ALLOWED_PERMISSIONS. cbn [existsb].
  rewrite !orb_true_iff, !String.eqb_eq. intuition discriminate.
Qed.

(** C5, as the code has it. Once every earlier step has passed and the
    permission request is answered 200 with data, [check] ends Approved
    exactly when the permission string is "write" or "admin", and then
    nothing was posted or closed and no failure reported; with any other
    string, "maintain" included, it ends Closed with the reason that the
    approver does not have write or admin access, and the remediation
    runs: the explanatory comment, then the close request unless the
    comment request failed in transport, and no [core.setFailed]. *)
Theorem permission_outcome (remote : Api) (this : PRApproval) (fuel : nat)
    (parsed : Parsed) (comment : Comment) (approver : string)
    (res : HttpResponse Permission) (d : Permission) :
  passed (contributor_step remote this fuel) tt ->
  passed (extract_step this) parsed ->
  passed (comment_step remote this parsed) comment ->
  passed (issue_step remote this comment) tt ->
  passed (phrase_step remote this comment) tt ->
  passed (approver_step comment) approver ->
  collaborator_permission remote (permission_url this approver) = Responded res ->
  http_status res = 200 -> http_json res = Some d ->
  (result (check remote this fuel) = Ret Approved <->
   permission d = "write" \/ permission d = "admin") /\
  (result (check remote this fuel) = Ret Approved ->
   untouched (trace (check remote this fuel)) /\
   unreported (trace (check remote this fuel))) /\
  (permission d <> "write" -> permission d <> "admin" ->
   result (check remote this fuel) = Ret (Closed (permission_reason approver)) /\
   In (autoclose_comment this (permission_reason approver)) (trace (check remote this fuel)) /\
   remediated remote this (permission_reason approver) (trace (check remote this fuel)) /\
   unreported (trace (check remote this fuel))).
Proof.
  intros H1 H2 H3 H4 H5 H6 E H200 Hd.
  pose proof (reach_permission remote this fuel parsed comment approver H1 H2 H3 H4 H5 H6)
    as Hreach.
  unfold from_permission in Hreach.
  pose proof (permission_step_unfold remote this approver res d E H200 Hd) as Hs.
  pose proof (allowed_iff (permission d)) as Hallow.
  pose proof (check_tagged remote this fuel) as Htag.
  destruct (allowed (permission d)).
  - assert (Hfin : reaches (check remote this fuel) (finish this approver)).
    { apply (reaches_step _ _ _ tt Hreach); [now rewrite Hs|rewrite Hs; reflexivity]. }
    destruct Hfin as (Hr & t0 & Ht & Hu).
    split; [split; [intros _; now apply Hallow|intros _; exact Hr]|]. split.
    + intros _. rewrite Hr in Htag. exact Htag.
    + intros Hw Ha. destruct (proj1 Hallow eq_refl); contradiction.
  - destruct (reaches_returned _ _ _ (Closed (permission_reason approver)) Hreach)
      as (Hr & t0 & Ht & Hu).
    { now rewrite Hs. }
    split; [split|split].
    + rewrite Hr. discriminate.
    + intros H. apply Hallow in H. discriminate.
    + rewrite Hr. discriminate.
    + intros _ _. split; [exact Hr|]. split; [|split].
      * rewrite Ht, Hs. apply in_reached. right. apply close_posts.
      * rewrite Ht, Hs. now apply remediated_after_get.
      * rewrite Hr in Htag. apply Htag.
Qed.

(** ** The approval phrase *)

Lemma prefix_nil (s : string) : prefix "" s = true.
Proof. destruct s; reflexivity. Qed.

Lemma indexOf_found (pat s : string) (i : nat) :
  JS.indexOf pat s = Some i -> substring_of pat s.
Proof.
  revert i. induction s as [|c s IH]; intros i; cbn [JS.indexOf].
  - destruct (prefix pat "") eqn:Hp; [|discriminate].
    intros _. apply prefix_inv in Hp. destruct Hp as [r Hr]. now exists "", r.
  - destruct (prefix pat (String c s)) eqn:Hp.
    + intros _. apply prefix_inv in Hp. destruct Hp as [r Hr]. now exists "", r.
    + destruct (JS.indexOf pat s) as [j|]; [|discriminate].
      intros _. destruct (IH j eq_refl) as (l & r & ->).
      now exists (String c l), r.
Qed.

Lemma indexOf_prefix (pat s : string) : prefix pat s = true -> JS.indexOf pat s = Some 0.
Proof. destruct s; cbn [JS.indexOf]; intros ->; reflexivity. Qed.

Lemma indexOf_occurs (pat l r : string) : JS.indexOf pat (l ++ pat ++ r) <> None.
Proof.
  induction l as [|c l IH].
  - cbn [append]. rewrite indexOf_prefix by apply prefix_append. discriminate.
  - cbn [append JS.indexOf]. destruct (prefix pat _); [discriminate|].
    destruct (JS.indexOf pat (l ++ pat ++ r)); [discriminate|contradiction].
Qed.

Lemma includes_iff (b pat : string) : JS.includes b pat = true <-> substring_of pat b.
Proof.
  unfold JS.includes. split.
  - destruct (JS.indexOf pat b) as [i|] eqn:E; [|discriminate].
    intros _. now apply (indexOf_found _ _ i).
  - intros (l & r & ->). pose proof (indexOf_occurs pat l r).
    destruct (JS.indexOf pat (l ++ pat ++ r)); [reflexivity|contradiction].
Qed.

Lemma indexOf_cons_none (pat : string) (c : ascii) (s : string) :
  JS.indexOf pat (String c s) = None ->
  prefix pat (String c s) = false /\ JS.indexOf pat s = None.
Proof.
  cbn [JS.indexOf]. destruct (prefix pat (String c s)); [discriminate|].
  destruct (JS.indexOf pat s); [discriminate|auto].
Qed.

Lemma getSubstitution_plain (matched before after repl : string) :
  JS.indexOf "$" repl = None ->
  JS.getSubstitution matched before after repl = repl.
Proof.
  induction repl as [|c r IH]; [reflexivity|].
  intros H. apply indexOf_cons_none in H. destruct H as [Hp Hr].
  cbn [JS.getSubstitution].
  destruct (Ascii.eqb_spec c "$") as [->|_].
  - cbn in Hp. now rewrite prefix_nil in Hp.
  - now rewrite IH.
Qed.

Lemma drop_add (a b : string) (n : nat) :
  JS.drop (String.length a + n) (a ++ b) = JS.drop n b.
Proof. induction a; simpl; auto. Qed.

(** The placeholder cannot start inside the text before it and run into
    itself: its first character occurs nowhere else in it. *)
Lemma user_no_overlap (s post : string) :
  s <> "" -> prefix "{user}" s = false -> prefix "{user}" (s ++ "{user}" ++ post) = false.
Proof.
  intros Hne H.
  destruct s as [|c1 s]; [congruence|].
  cbn [append prefix] in *. destruct (ascii_dec "{" c1); [|reflexivity].
  destruct s as [|c2 s]; [reflexivity|].
  cbn [append prefix] in *. destruct (ascii_dec "u" c2); [|reflexivity].
  destruct s as [|c3 s]; [reflexivity|].
  cbn [append prefix] in *. destruct (ascii_dec "s" c3); [|reflexivity].
  destruct s as [|c4 s]; [reflexivity|].
  cbn [append prefix] in *. destruct (ascii_dec "e" c4); [|reflexivity].
  destruct s as [|c5 s]; [reflexivity|].
  cbn [append prefix] in *. destruct (ascii_dec "r" c5); [|reflexivity].
  destruct s as [|c6 s]; [reflexivity|].
  cbn [append prefix] in *. destruct (ascii_dec "}" c6); [|reflexivity].
  now rewrite prefix_nil in H.
Qed.

Lemma indexOf_user (pre post : string) :
  JS.includes pre "{user}" = false ->
  JS.indexOf "{user}" (pre ++ "{user}" ++ post) = Some (String.length pre).
Proof.
  unfold JS.includes. induction pre as [|c pre IH]; intros H.
  - change ("" ++ "{user}" ++ post) with ("{user}" ++ post).
    now rewrite indexOf_prefix by apply prefix_append.
  - destruct (JS.indexOf "{user}" (String c pre)) eqn:E; [discriminate|].
    apply indexOf_cons_none in E. destruct E as [Hp Hi].
    change (String c pre ++ "{user}" ++ post) with (String c (pre ++ "{user}" ++ post)).
    cbn [JS.indexOf].
    change (String c (pre ++ "{user}" ++ post)) with (String c pre ++ "{user}" ++ post).
    rewrite user_no_overlap by (assumption || discriminate).
    rewrite IH by now rewrite Hi. reflexivity.
Qed.

Lemma expected_phrase (this : PRApproval) (pre post : string) :
  approvalStr (cfg this) = pre ++ "{user}" ++ post ->
  JS.includes pre "{user}" = false ->
  JS.includes (prUser this) "$" = false ->
  expected this = pre ++ "@" ++ prUser this ++ post.
Proof.
  intros Ht Hpre Hu. unfold expected, JS.replace.
  rewrite Ht, (indexOf_user pre post Hpre). cbv zeta.
  rewrite take_append, drop_add. cbn [JS.drop String.length append].
  f_equal. cbn [JS.getSubstitution Ascii.eqb Bool.eqb]. cbn [append].
  rewrite getSubstitution_plain; [reflexivity|].
  unfold JS.includes in Hu. now destruct (JS.indexOf "$" (prUser this)).
Qed.

Lemma finish_result (this : PRApproval) (approver : string) :
  result (finish this approver) = Ret Approved.
Proof. reflexivity. Qed.

(** After the phrase check, [check] no longer ends with the phrase's
    reason. *)
Lemma from_approver_not_phrase (remote : Api) (this : PRApproval) (comment : Comment)
    (phrase : string) :
  result (from_approver remote this comment) <> Ret (Closed (phrase_reason phrase)).
Proof.
  unfold from_approver.
  destruct (approver_step comment) as [[[o|approver]| |] t] eqn:Ha.
  - assert (exists msg, o = Failed msg) as [msg ->].
    { revert Ha. unfold approver_step, fail, continue, setFailed, emit, bind, ret.
      destruct (comment_user_login comment) as [[|c a]|]; intros [=]; subst; eauto. }
    discriminate.
  - destruct (step_passed (Ret (inr approver), t) (from_permission remote this) approver
                eq_refl) as [-> _].
    unfold from_permission.
    destruct (permission_step_results remote this approver) as [H|[H|[msg H]]].
    + destruct (step_passed _ (fun _ => finish this approver) tt H) as [-> _]. discriminate.
    + destruct (step_returned _ (fun _ => finish this approver) _ H) as [-> _].
      unfold permission_reason, phrase_reason. cbn [append]. discriminate.
    + destruct (step_returned _ (fun _ => finish this approver) _ H) as [-> _]. discriminate.
  - discriminate.
  - discriminate.
Qed.

(** C4. With the template split at its first [{user}] and a login free of
    [$] (every GitHub login is), the expected phrase is the template with
    that placeholder replaced by [@] and the login; and once the issue
    check has passed, [check] ends Closed with the reason that the phrase
    was not found exactly when the comment has no body containing the
    phrase as a substring, characters compared as they are; it then runs
    the remediation: the explanatory comment, then the close request
    unless the comment request failed in transport, and no
    [core.setFailed]. *)
Theorem approval_phrase (remote : Api) (this : PRApproval) (fuel : nat)
    (parsed : Parsed) (comment : Comment) (pre post : string) :
  approvalStr (cfg this) = pre ++ "{user}" ++ post ->
  JS.includes pre "{user}" = false ->
  JS.includes (prUser this) "$" = false ->
  passed (contributor_step remote this fuel) tt ->
  passed (extract_step this) parsed ->
  passed (comment_step remote this parsed) comment ->
  passed (issue_step remote this comment) tt ->
  let phrase := pre ++ "@" ++ prUser this ++ post in
  expected this = phrase /\
  (result (check remote this fuel) = Ret (Closed (phrase_reason phrase)) <->
   ~ exists b, comment_body comment = Some b /\ substring_of phrase b) /\
  (result (check remote this fuel) = Ret (Closed (phrase_reason phrase)) ->
   In (autoclose_comment this (phrase_reason phrase)) (trace (check remote this fuel))) /\
  (result (check remote this fuel) = Ret (Closed (phrase_reason phrase)) ->
   remediated remote this (phrase_reason phrase) (trace (check remote this fuel)) /\
   unreported (trace (check remote this fuel))).
Proof.
  intros Ht Hpre Hu H1 H2 H3 H4 phrase.
  pose proof (expected_phrase this pre post Ht Hpre Hu) as He. fold phrase in He.
  split; [exact He|].
  pose proof (reach_phrase remote this fuel parsed comment H1 H2 H3 H4) as Hreach.
  unfold from_phrase in Hreach.
  pose proof (phrase_step_unfold remote this comment) as Hs. rewrite He in Hs.
  assert (Hinc : body_includes this comment = true <->
                 exists b, comment_body comment = Some b /\ substring_of phrase b).
  { unfold body_includes. rewrite He. destruct (comment_body comment) as [b|].
    - rewrite includes_iff. split; [eauto|]. now intros (b' & [= <-] & H).
    - split; [discriminate|]. now intros (b' & [=] & _). }
  destruct (body_includes this comment).
  - assert (Hrest : reaches (check remote this fuel) (from_approver remote this comment)).
    { apply (reaches_step _ _ _ tt Hreach); [now rewrite Hs|rewrite Hs; reflexivity]. }
    destruct Hrest as (Hr & _).
    assert (Hne : result (check remote this fuel) <> Ret (Closed (phrase_reason phrase))).
    { rewrite Hr. apply from_approver_not_phrase. }
    split; [split|split]; try contradiction.
    intros Hn. exfalso. apply Hn. now apply Hinc.
  - destruct (reaches_returned _ _ _ (Closed (phrase_reason phrase)) Hreach)
      as (Hr & t0 & Htr & Hu0).
    { now rewrite Hs. }
    split; [split|split].
    + intros _ Hex. apply Hinc in Hex. discriminate.
    + intros _. exact Hr.
    + intros _. rewrite Htr, Hs. apply in_reached. apply close_posts.
    + intros _. split.
      * rewrite Htr, Hs. now apply remediated_after.
      * pose proof (check_tagged remote this fuel) as Htag. rewrite Hr in Htag. apply Htag.
Qed.

(** ** The reference step *)

Lemma extraction_failure_reported (remote : Api) (this : PRApproval) (fuel : nat)
    (err : ExtractError) :
  passed (contributor_step remote this fuel) tt ->
  extractCommentURL (prBody this) (referenceStr (cfg this)) (owner this) (repo this) = inl err ->
  result (check remote this fuel) = Ret (Failed (error_message err)) /\
  untouched (trace (check remote this fuel)).
Proof.
  intros H1 He.
  destruct (check_passed remote this fuel H1) as (Hr & t0 & Ht & Hu).
  assert (Hs : extract_step this
               = (Ret (inl (Failed (error_message err))), [SetFailed (error_message err)])).
  { unfold extract_step. now rewrite He. }
  destruct (step_returned (extract_step this) (from_comment remote this) _ (f_equal fst Hs))
    as [Hr' Ht'].
  change (step (extract_step this) (from_comment remote this))
    with (check_reference remote this) in Hr', Ht'.
  split; [congruence|].
  rewrite Ht, Ht', Hs. apply untouched_app. split; [exact Hu|reflexivity].
Qed.

(** C1, on scenario A of the specification. The reference lacks the issue
    part, so the extraction fails, and [check] reports the failure with
    [core.setFailed] and returns: no comment is posted and the pull
    request is not closed, whatever the server would answer. *)
Theorem scenario_A_reported_not_closed (remote : Api) (fuel : nat) :
  check remote scenario_A fuel =
  (Ret (Failed "No approval comment URL found in the PR body."),
   [Info "verifying PR #7 by @bob in acme/widgets";
    SetFailed "No approval comment URL found in the PR body."]).
Proof. vm_compute. reflexivity. Qed.

(** ** The owner's pull requests *)

(** C3, as the code has it. When the event carries a pull request whose
    author is the owner of the repository, letter case aside, [run] makes
    no request at all, and with a token it returns at once with the skip
    message; no input changes that, [force_validate_owner_prs] included,
    for [run] never reads it. *)
Theorem owner_short_circuit (remote : Api) (env : Env) (fuel : nat)
    (path : string) (pr : PullRequest) :
  GITHUB_EVENT_PATH env = Some path -> path <> "" ->
  read_event env path = inr (Some pr) ->
  JS.toLowerCase (base_repo_owner_login pr) = JS.toLowerCase (user_login pr) ->
  filter is_fetch (trace (run remote env fuel)) = [] /\
  (getInput env "github_token" <> "" ->
   run remote env fuel = (Ret (Skipped OwnerPR), [Info owner_skip_message])).
Proof.
  intros Hp Hne Hev Hown. unfold run. rewrite Hp.
  destruct path as [|c path]; [congruence|]. rewrite Hev.
  destruct (String.eqb_spec (getInput env "github_token") "") as [Ht|Ht].
  - split; [reflexivity|contradiction].
  - rewrite Hown, String.eqb_refl. split; reflexivity.
Qed.

Lemma owner_short_circuit_witness :
  run (widgets_api "open" "write") forced_env 1
  = (Ret (Skipped OwnerPR), [Info owner_skip_message]).
Proof.
  apply (proj2 (owner_short_circuit (widgets_api "open" "write") forced_env 1
                  "/github/workflow/event.json" owner_pr
                  eq_refl ltac:(discriminate) eq_refl eq_refl)).
  discriminate.
Defined.

(** C3 as stated fails: with [force_validate_owner_prs] set, the owner's
    pull request is skipped all the same and nothing is validated. *)
Lemma owner_pr_skipped_despite_force :
  getInput forced_env "force_validate_owner_prs" = "true" /\
  run (widgets_api "open" "write") forced_env 1
  = (Ret (Skipped OwnerPR), [Info owner_skip_message]).
Proof. split; vm_compute; reflexivity. Qed.

(** ** Instances *)

Lemma comment_fetch_outcome_witness :
  result (check (widgets_api "open" "write") (bob_pr dangling_body) 0)
  = Ret (Closed not_found_reason).
Proof.
  refine (proj1 (proj1 (comment_fetch_outcome (widgets_api "open" "write")
                          (bob_pr dangling_body) 0
                          (mkParsed "acme" "widgets" "5" "10"
                             "https://github.com/acme/widgets/issues/5#issuecomment-10")
                          {| http_status := 404; http_json := None; http_link := None |}
                          _ _ _) (or_introl eq_refl))).
  - reflexivity.
  - vm_compute. reflexivity.
  - vm_compute. reflexivity.
Defined.

Lemma issue_state_outcome_witness :
  result (check (widgets_api "closed" "admin") (bob_pr valid_body) 0)
  = Ret (Closed issue_closed_reason).
Proof.
  refine (proj1 (proj1 (issue_state_outcome (widgets_api "closed" "admin")
                          (bob_pr valid_body) 0 valid_parsed
                          (carol_comment "@bob PR approved")
                          {| http_status := 200;
                             http_json := Some {| issue_state := "closed" |};
                             http_link := None |}
                          _ _ _ _) {| issue_state := "closed" |} eq_refl eq_refl _)).
  - reflexivity.
  - vm_compute. reflexivity.
  - vm_compute. reflexivity.
  - vm_compute. reflexivity.
  - discriminate.
Defined.

Lemma permission_outcome_witness :
  result (check (widgets_api "open" "write") (bob_pr valid_body) 0) = Ret Approved.
Proof.
  refine (proj2 (proj1 (permission_outcome (widgets_api "open" "write")
                          (bob_pr valid_body) 0 valid_parsed
                          (carol_comment "@bob PR approved") "carol"
                          {| http_status := 200;
                             http_json := Some {| permission := "write" |};
                             http_link := None |}
                          {| permission := "write" |}
                          _ _ _ _ _ _ _ eq_refl eq_refl)) (or_introl eq_refl)).
  all: vm_compute; reflexivity.
Defined.

Lemma approval_phrase_witness :
  expected alice_pr = "@alice PR approved" /\
  result (check (widgets_api_with "@alice pr approved" "open" "write") alice_pr 0)
  = Ret (Closed (phrase_reason "@alice PR approved")).
Proof.
  destruct (approval_phrase (widgets_api_with "@alice pr approved" "open" "write")
              alice_pr 0 valid_parsed (carol_comment "@alice pr approved")
              "" " PR approved") as (He & Hiff & _).
  1-7: vm_compute; reflexivity.
  split; [exact He|]. apply Hiff.
  intros (b & [= <-] & Hsub). apply includes_iff in Hsub. vm_compute in Hsub. discriminate.
Defined.


(** ** Scenarios of the specification *)

Example extract_ok :
  extractCommentURL
    "Fixes it. Approval: https://github.com/Acme/widgets/issues/5#issuecomment-9 thanks"
    "Approval: {url}" "acme" "widgets"
  = inr (mkParsed "acme" "widgets" "5" "9"
           "https://github.com/Acme/widgets/issues/5#issuecomment-9").
Proof. vm_compute. reflexivity. Qed.

Example extract_no_issue :
  extractCommentURL "Approval: https://github.com/acme/widgets#issuecomment-9"
    "Approval: {url}" "acme" "widgets" = inl ENoURL.
Proof. vm_compute. reflexivity. Qed.

Example extract_cross :
  extractCommentURL "Approval: https://github.com/evil/widgets/issues/5#issuecomment-9"
    "Approval: {url}" "acme" "widgets" = inl (ECrossRepo "acme" "widgets" "evil" "widgets").
Proof. vm_compute. reflexivity. Qed.

Example replace_alice :
  JS.replace "{user} PR approved" "{user}" "@alice" = "@alice PR approved".
Proof. vm_compute. reflexivity. Qed.

Example includes_superstring :
  JS.includes "@alice PR approved!" "@alice PR approved" = true.
Proof. reflexivity. Qed.

Example includes_other_case :
  JS.includes "@alice pr approved" "@alice PR approved" = false.
Proof. reflexivity. Qed.

Example replace_dollar_pattern :
  JS.replace "{user} PR approved" "{user}" "@a$&" = "@a{user} PR approved".
Proof. reflexivity. Qed.

Example replace_first_only :
  JS.replace "{user} and {user}" "{user}" "@bob" = "@bob and {user}".
Proof. reflexivity. Qed.

Example escape_template : escapeRegExp "Ref (see): {" = "Ref \(see\): \{".
Proof. reflexivity. Qed.

Example scenario_B :
  check (widgets_api "open" "write") (bob_pr valid_body) 0 =
  (Ret Approved,
   [Info "verifying PR #7 by @bob in acme/widgets";
    Info "Found comment URL: https://github.com/acme/widgets/issues/5#issuecomment-9";
    Fetch GET "https://api.github.com/repos/acme/widgets/issues/comments/9" None;
    Fetch GET "https://api.github.com/repos/acme/widgets/issues/5" None;
    Fetch GET "https://api.github.com/repos/acme/widgets/collaborators/carol/permission" None;
    Info "PR #7 has valid approval from @carol. All checks passed."]).
Proof. vm_compute. reflexivity. Qed.

Example scenario_C :
  result (check (widgets_api "open" "read") (bob_pr valid_body) 0)
  = Ret (Closed "@carol does not have write or admin access to this repository.") /\
  In (close_request (bob_pr valid_body))
     (trace (check (widgets_api "open" "read") (bob_pr valid_body) 0)).
Proof. split; [vm_compute; reflexivity|]. vm_compute. tauto. Qed.

(** C5 as stated fails for a role above write that is reported under its
    own name: the permission lookup answers 200 with "maintain", all
    earlier steps have passed, and [check] closes the pull request. *)
Example maintain_is_not_allowed :
  collaborator_permission (widgets_api "open" "maintain")
    (permission_url (bob_pr valid_body) "carol")
  = answer 200 {| permission := "maintain" |} /\
  result (check (widgets_api "open" "maintain") (bob_pr valid_body) 0)
  = Ret (Closed "@carol does not have write or admin access to this repository.").
Proof. split; vm_compute; reflexivity. Qed.

Example scenario_D :
  check roster_api excluding_pr 5 =
  (Ret (Skipped PastContributor),
   [Info "verifying PR #7 by @bob in acme/widgets";
    Info "exclude_past_contributors is enabled. Checking contributor list";
    Fetch GET "https://api.github.com/repos/acme/widgets/contributors?per_page=100&page=1" None;
    Fetch GET "https://api.github.com/repos/acme/widgets/contributors?per_page=100&page=2" None;
    Info "@bob is a past contributor. Skipping approval check."]).
Proof. vm_compute. reflexivity. Qed.

Example superstring_comment_approved :
  result (check (widgets_api_with "@alice PR approved!" "open" "admin") alice_pr 0)
  = Ret Approved.
Proof. vm_compute. reflexivity. Qed.

(** * Further properties *)

(** ** Literal patterns and the search *)

Lemma lit_matches (p : string) : forall i s2, matches (lit p) i p s2.
Proof.
  induction p as [|c p IH]; intros i s2; cbn [lit]; [constructor|].
  change (String c p) with (String c "" ++ p). constructor; [constructor|apply IH].
Qed.

Lemma exec_from_sound_at (r : regex) :
  forall s i c, exec_from r i s = Some c ->
    exists pre t,
      s = pre ++ t /\
      m r 1 (i + String.length pre) t no_caps
        (fun i' _ caps =>
           Some (set_cap 0 (JS.take (i' - (i + String.length pre)) t) caps))
      = Some c.
Proof.
  induction s as [|d s IH]; intros i c H; cbn [exec_from] in H.
  - destruct (m r 1 i "" no_caps _) eqn:Hm; [|discriminate].
    injection H as ->. exists "", "". cbn [String.length]. rewrite Nat.add_0_r. auto.
  - destruct (m r 1 i (String d s) no_caps _) eqn:Hm.
    + injection H as ->. exists "", (String d s). cbn [String.length].
      rewrite Nat.add_0_r. auto.
    + apply IH in H. destruct H as (pre & t & -> & H).
      exists (String d pre), t. split; [reflexivity|].
      cbn [String.length]. now rewrite <- Nat.add_succ_comm.
Qed.

Lemma exec_from_complete_at (r : regex) (s1 s2 : string) :
  forall pre i,
    matches r (i + String.length pre) s1 s2 ->
    exec_from r i (pre ++ s1 ++ s2) <> None.
Proof.
  induction pre as [|d pre IH]; intros i H.
  - cbn [String.length] in H. rewrite Nat.add_0_r in H.
    assert (Hm : m r 1 i (s1 ++ s2) no_caps
                   (fun i' _ caps => Some (set_cap 0 (JS.take (i' - i) (s1 ++ s2)) caps))
                 <> None).
    { apply (m_complete _ _ _ _ H). discriminate. }
    change ("" ++ s1 ++ s2) with (s1 ++ s2).
    destruct (s1 ++ s2); cbn [exec_from];
      match goal with
      | |- context [match ?x with Some _ => _ | None => _ end] => destruct x
      end; congruence.
  - change (String d pre ++ s1 ++ s2) with (String d (pre ++ s1 ++ s2)).
    cbn [exec_from].
    match goal with
    | |- context [match ?x with Some _ => _ | None => _ end] => destruct x
    end; [discriminate|].
    apply IH. cbn [String.length] in H. now rewrite <- Nat.add_succ_comm in H.
Qed.

(** X1. The pattern text [escapeRegExp] makes of a string parses to a
    pattern that finds exactly the texts in which the string occurs,
    character for character: no character of the string acts as pattern
    syntax. *)
Theorem escaped_text_is_literal (s text : string) :
  exists r, parse_literal (escapeRegExp s) = Some r /\
            (str_match text r <> None <-> substring_of s text).
Proof.
  exists (lit s). split; [apply parse_escaped|]. unfold str_match. split.
  - destruct (exec_from (lit s) 0 text) as [c|] eqn:E; [intros _|congruence].
    apply exec_from_sound_at in E. destruct E as (pre & t & -> & Hm).
    apply lit_sound in Hm. destruct Hm as (s' & -> & _). now exists pre, s'.
  - intros (l & r & ->). apply exec_from_complete_at. apply lit_matches.
Qed.

(** ** What the comment-URL pattern captures *)

Lemma group_plus_sound {R} (k : cclass) (g i : nat) (s : string) (caps : captures)
    (kont : cont R) (res : R) :
  m (Group (Plus k)) g i s caps kont = Some res ->
  exists a s', s = a ++ s' /\ all_in k a /\
               kont (i + String.length a) s' (set_cap g a caps) = Some res.
Proof.
  cbn [m]. intros H. apply plus_loop_sound in H.
  destruct H as (a & s' & -> & Ha & H). exists a, s'. repeat split; auto.
  replace (i + String.length a - i) with (String.length a) in H by lia.
  now rewrite take_append in H.
Qed.

Lemma take_app_at (i : nat) (a b : string) :
  JS.take (i + String.length a - i) (a ++ b) = a.
Proof.
  replace (i + String.length a - i) with (String.length a) by lia. apply take_append.
Qed.

Lemma comment_url_match_inv (url : string) (u : captures) :
  str_match url RE_COMMENT_URL = Some u ->
  exists o r n c,
    url = comment_url_text o r n c /\ url_parts o r n c /\
    u 1 = Some o /\ u 2 = Some r /\ u 3 = Some n /\ u 4 = Some c.
Proof.
  unfold str_match. intros H. apply exec_from_sound_at in H.
  destruct H as (pre & t & -> & Hm).
  unfold RE_COMMENT_URL in Hm.
  cbn [m] in Hm.
  destruct (Nat.eqb_spec (0 + String.length pre) 0) as [Hz|]; [|discriminate].
  destruct pre; [|discriminate]. clear Hz.
  apply lit_sound in Hm. destruct Hm as (t1 & -> & Hm).
  rewrite !ngroups_lit in Hm. cbn [ngroups Nat.add] in Hm.
  apply plus_loop_sound in Hm. destruct Hm as (o & t2 & -> & Ho & Hm). cbv beta in Hm.
  destruct t2 as [|c2 t2]; [discriminate|].
  destruct (Ascii.eqb_spec "/" c2) as [<-|]; [|discriminate].
  apply plus_loop_sound in Hm. destruct Hm as (r & t3 & -> & Hr & Hm). cbv beta in Hm.
  apply lit_sound in Hm. destruct Hm as (t4 & -> & Hm).
  apply plus_loop_sound in Hm. destruct Hm as (n & t5 & -> & Hn & Hm). cbv beta in Hm.
  apply lit_sound in Hm. destruct Hm as (t6 & -> & Hm).
  apply plus_loop_sound in Hm. destruct Hm as (c & t7 & -> & Hc & Hm). cbv beta in Hm.
  destruct t7; [|discriminate]. injection Hm as <-.
  rewrite !take_app_at, ?Nat.sub_0_r, ?take_append.
  exists o, r, n, c. unfold url_parts, set_cap. cbn [Nat.eqb].
  repeat split; auto.
  unfold comment_url_text. now rewrite append_nil_r.
Qed.

Lemma comment_url_text_matches (o r n c : string) :
  url_parts o r n c -> forall i s2, matches reUrl i (comment_url_text o r n c) s2.
Proof.
  intros (Ho & Hr & Hn & Hc) i s2.
  change reUrl with
    (Seq (lit "https://github.com/")
       (Seq (Group (Plus NotSlash))
          (Seq (Chr "/")
             (Seq (Group (Plus NotSlash))
                (Seq (lit "/issues/")
                   (Seq (Group (Plus Digit))
                      (Seq (lit "#issuecomment-") (Group (Plus Digit))))))))).
  unfold comment_url_text.
  repeat first [apply M_Seq | apply lit_matches | apply M_Chr
               | apply M_Group; apply M_Plus; assumption].
Qed.

(** The placeholder of the reference template does not overlap itself. *)
Lemma url_no_overlap (s post : string) :
  s <> "" -> prefix "{url}" s = false -> prefix "{url}" (s ++ "{url}" ++ post) = false.
Proof.
  intros Hne H.
  destruct s as [|c1 s]; [congruence|].
  cbn [append prefix] in *. destruct (ascii_dec "{" c1); [|reflexivity].
  destruct s as [|c2 s]; [reflexivity|].
  cbn [append prefix] in *. destruct (ascii_dec "u" c2); [|reflexivity].
  destruct s as [|c3 s]; [reflexivity|].
  cbn [append prefix] in *. destruct (ascii_dec "r" c3); [|reflexivity].
  destruct s as [|c4 s]; [reflexivity|].
  cbn [append prefix] in *. destruct (ascii_dec "l" c4); [|reflexivity].
  destruct s as [|c5 s]; [reflexivity|].
  cbn [append prefix] in *. destruct (ascii_dec "}" c5); [|reflexivity].
  now rewrite prefix_nil in H.
Qed.

Lemma indexOf_url (pre post : string) :
  JS.includes pre "{url}" = false ->
  JS.indexOf "{url}" (pre ++ "{url}" ++ post) = Some (String.length pre).
Proof.
  unfold JS.includes. induction pre as [|c pre IH]; intros H.
  - change ("" ++ "{url}" ++ post) with ("{url}" ++ post).
    now rewrite indexOf_prefix by apply prefix_append.
  - destruct (JS.indexOf "{url}" (String c pre)) eqn:E; [discriminate|].
    apply indexOf_cons_none in E. destruct E as [Hp Hi].
    change (String c pre ++ "{url}" ++ post) with (String c (pre ++ "{url}" ++ post)).
    cbn [JS.indexOf].
    change (String c (pre ++ "{url}" ++ post)) with (String c pre ++ "{url}" ++ post).
    rewrite url_no_overlap by (assumption || discriminate).
    rewrite IH by now rewrite Hi. reflexivity.
Qed.

(** A template with one placeholder splits into the text before it and
    the text after it. *)
Lemma split_template (part0 part1 : string) :
  JS.includes part0 "{url}" = false ->
  JS.includes part1 "{url}" = false ->
  JS.split (part0 ++ "{url}" ++ part1) "{url}" = [part0; part1].
Proof.
  intros H0 H1. unfold JS.split. cbn [JS.split_from].
  rewrite (indexOf_url part0 part1 H0), take_append, drop_add.
  cbn [JS.drop String.length append].
  rewrite length_append. cbn [String.length]. rewrite Nat.add_succ_r.
  cbn [JS.split_from]. unfold JS.includes in H1.
  destruct (JS.indexOf "{url}" part1); [discriminate|reflexivity].
Qed.

Lemma reference_match_inv (part0 part1 body : string) (mt : captures) :
  str_match body (Seq (lit part0) (Seq (Group reUrl) (lit part1))) = Some mt ->
  exists pre url post,
    body = pre ++ part0 ++ url ++ part1 ++ post /\ mt 1 = Some url /\
    exists i s2, matches reUrl i url s2.
Proof.
  unfold str_match. intros Hm.
  apply exec_from_sound_at in Hm. destruct Hm as (pre & t & -> & Hm).
  cbn [m] in Hm.
  apply lit_sound in Hm. destruct Hm as (t1 & -> & Hm).
  apply m_sound in Hm. destruct Hm as (u & t2 & c1 & -> & Hu & Hm).
  apply lit_sound in Hm. destruct Hm as (post & -> & Hm).
  injection Hm as <-.
  exists pre, u, post. split; [reflexivity|]. split; [|eauto].
  rewrite ngroups_lit. unfold set_cap. cbn [Nat.eqb Nat.add].
  now rewrite take_app_at.
Qed.

Lemma reference_match_complete (part0 part1 body : string) :
  holds_reference body part0 part1 ->
  str_match body (Seq (lit part0) (Seq (Group reUrl) (lit part1))) <> None.
Proof.
  intros (pre & o & r & n & c & post & -> & Hparts). unfold str_match.
  replace (pre ++ part0 ++ comment_url_text o r n c ++ part1 ++ post)
    with (pre ++ (part0 ++ comment_url_text o r n c ++ part1) ++ post)
    by now rewrite !append_assoc.
  apply exec_from_complete_at.
  apply M_Seq; [apply lit_matches|].
  apply M_Seq; [|apply lit_matches].
  apply M_Group. now apply comment_url_text_matches.
Qed.

(** How [extractCommentURL] ends for a template with one placeholder. *)
Lemma extract_cases (prBody part0 part1 owner repo : string) :
  JS.includes part0 "{url}" = false ->
  JS.includes part1 "{url}" = false ->
  let result := extractCommentURL prBody (part0 ++ "{url}" ++ part1) owner repo in
  (~ holds_reference prBody part0 part1 /\ result = inl ENoURL) \/
  (exists pre o r n c post,
      prBody = pre ++ part0 ++ comment_url_text o r n c ++ part1 ++ post /\
      url_parts o r n c /\
      result =
      if negb (String.eqb (JS.toLowerCase o) owner) || negb (String.eqb (JS.toLowerCase r) repo)
      then inl (ECrossRepo owner repo o r)
      else inr (mkParsed (JS.toLowerCase o) (JS.toLowerCase r) n c (comment_url_text o r n c))).
Proof.
  intros H0 H1. cbv zeta. unfold extractCommentURL.
  rewrite (split_template part0 part1 H0 H1). cbn [nth_error].
  unfold reference_regex. rewrite !parse_escaped.
  destruct (str_match prBody _) as [mt|] eqn:Hm.
  2:{ left. split; [|reflexivity]. intros Hh.
      now apply (reference_match_complete part0 part1 prBody Hh). }
  right. apply reference_match_inv in Hm.
  destruct Hm as (pre & url & post & -> & H1' & i & s2 & Hshape).
  rewrite H1'.
  pose proof (comment_url_reparses i url s2 Hshape) as Hre.
  destruct (str_match url RE_COMMENT_URL) as [u|] eqn:Hu; [|congruence].
  apply comment_url_match_inv in Hu.
  destruct Hu as (o & r & n & c & -> & Hparts & E1 & E2 & E3 & E4).
  exists pre, o, r, n, c, post. split; [reflexivity|]. split; [assumption|].
  unfold cap. rewrite E1, E2, E3, E4. reflexivity.
Qed.

(** ** The reference extractor *)

(** X2. For a template with one placeholder, [extractCommentURL] fails
    with "No approval comment URL found in the PR body." exactly when the
    body nowhere holds the text before the placeholder, a comment URL of
    the required shape and the text after the placeholder in a row. *)
Theorem reference_not_found_iff (prBody part0 part1 owner repo : string) :
  JS.includes part0 "{url}" = false ->
  JS.includes part1 "{url}" = false ->
  (extractCommentURL prBody (part0 ++ "{url}" ++ part1) owner repo = inl ENoURL <->
   ~ holds_reference prBody part0 part1).
Proof.
  intros H0 H1.
  destruct (extract_cases prBody part0 part1 owner repo H0 H1)
    as [[Hn ->]|(pre & o & r & n & c & post & Hb & Hp & ->)].
  - tauto.
  - split.
    + destruct (_ || _); discriminate.
    + intros Hn. exfalso. apply Hn. exists pre, o, r, n, c, post. auto.
Qed.

Lemma reference_not_found_iff_witness :
  extractCommentURL "Fixes the build" ("Approval: " ++ "{url}" ++ "") "acme" "widgets"
  = inl ENoURL <->
  ~ holds_reference "Fixes the build" "Approval: " "".
Proof.
  apply (reference_not_found_iff "Fixes the build" "Approval: " "" "acme" "widgets");
    reflexivity.
Defined.



(** X4. For a template with one placeholder, when [extractCommentURL]
    fails with the "should belong to" error, the error names the caller's
    owner and repository and those of a comment URL that the body holds in
    the template, and these differ from the caller's after lower-casing. *)
Theorem cross_repository_error_sound (prBody part0 part1 owner repo : string)
    (eOwner eRepo uOwner uRepo : string) :
  JS.includes part0 "{url}" = false ->
  JS.includes part1 "{url}" = false ->
  extractCommentURL prBody (part0 ++ "{url}" ++ part1) owner repo
  = inl (ECrossRepo eOwner eRepo uOwner uRepo) ->
  eOwner = owner /\ eRepo = repo /\
  (JS.toLowerCase uOwner <> owner \/ JS.toLowerCase uRepo <> repo) /\
  exists pre n c post,
    prBody = pre ++ part0 ++ comment_url_text uOwner uRepo n c ++ part1 ++ post /\
    url_parts uOwner uRepo n c.
Proof.
  intros H0 H1 He.
  destruct (extract_cases prBody part0 part1 owner repo H0 H1)
    as [[_ Hr]|(pre & o & r & n & c & post & Hb & Hp & Hr)];
    rewrite Hr in He; [discriminate|].
  destruct (String.eqb_spec (JS.toLowerCase o) owner) as [Ho|Ho];
    destruct (String.eqb_spec (JS.toLowerCase r) repo) as [Hrp|Hrp];
    cbn [negb orb] in He; try discriminate; injection He as <- <- <- <-;
    (split; [reflexivity|]); (split; [reflexivity|]);
    (split; [tauto|]); exists pre, n, c, post; auto.
Qed.

Lemma cross_repository_error_sound_witness :
  (JS.toLowerCase "evil" <> "acme" \/ JS.toLowerCase "widgets" <> "widgets") /\
  exists pre n c post,
    "Approval: https://github.com/evil/widgets/issues/5#issuecomment-9"
    = pre ++ "Approval: " ++ comment_url_text "evil" "widgets" n c ++ "" ++ post /\
    url_parts "evil" "widgets" n c.
Proof.
  apply (cross_repository_error_sound
           "Approval: https://github.com/evil/widgets/issues/5#issuecomment-9"
           "Approval: " "" "acme" "widgets" "acme" "widgets" "evil" "widgets");
    vm_compute; reflexivity.
Defined.

Lemma split_from_nonempty (fuel : nat) (sep s : string) :
  exists b rest, JS.split_from fuel sep s = b :: rest.
Proof.
  destruct fuel; cbn [JS.split_from]; [eauto|].
  destruct (JS.indexOf sep s); eauto.
Qed.

Lemma split_without (s sep : string) : JS.includes s sep = false -> JS.split s sep = [s].
Proof.
  unfold JS.includes, JS.split. cbn [JS.split_from].
  destruct (JS.indexOf sep s); [discriminate|reflexivity].
Qed.

Lemma split_with (s sep : string) :
  JS.includes s sep = true -> exists a b rest, JS.split s sep = a :: b :: rest.
Proof.
  unfold JS.includes, JS.split. cbn [JS.split_from].
  destruct (JS.indexOf sep s) as [i|]; [intros _|discriminate].
  destruct (split_from_nonempty (String.length s) sep (JS.drop (i + String.length sep) s))
    as (b & rest & ->).
  eauto.
Qed.

Lemma type_error_cases (prBody referenceStr owner repo : string) :
  (exists msg, extractCommentURL prBody referenceStr owner repo = inl (EType msg)) <->
  JS.includes referenceStr "{url}" = false.
Proof.
  unfold extractCommentURL.
  destruct (JS.includes referenceStr "{url}") eqn:Hi.
  - destruct (split_with _ _ Hi) as (a & b & rest & ->). cbn [nth_error].
    unfold reference_regex. rewrite !parse_escaped.
    split; [|discriminate]. intros [msg H]. exfalso. revert H.
    destruct (str_match prBody _) as [mt|]; [|discriminate].
    destruct (mt 1) as [[|c url]|]; try discriminate.
    destruct (str_match _ RE_COMMENT_URL); [|discriminate].
    destruct (_ || _); discriminate.
  - rewrite (split_without _ _ Hi). cbn [nth_error]. split; [reflexivity|eauto].
Qed.

(** X5. Whatever the body, [extractCommentURL] fails with the engine's
    error about [parts[1]] exactly when the reference template has no
    [{url}] placeholder; the pattern it assembles always compiles. *)
Theorem placeholder_missing_iff (prBody referenceStr owner repo : string) :
  (exists msg, extractCommentURL prBody referenceStr owner repo = inl (EType msg)) <->
  JS.includes referenceStr "{url}" = false.
Proof. apply type_error_cases. Qed.

(** ** Configuration *)

(** X6. A configuration that [validateConfig] accepts keeps its promises
    later on: [extractCommentURL] never fails with the engine's error
    about the template, and, for a login free of [$], the phrase that
    [check] looks for names the author, [@] and login. *)
Theorem validated_config_is_usable (this : PRApproval) :
  config_error (cfg this) = None ->
  (forall prBody owner repo msg,
      extractCommentURL prBody (referenceStr (cfg this)) owner repo <> inl (EType msg)) /\
  (JS.includes (prUser this) "$" = false ->
   substring_of ("@" ++ prUser this) (expected this)).
Proof.
  unfold config_error. intros H.
  destruct (JS.includes (referenceStr (cfg this)) "{url}") eqn:Hr; [|discriminate].
  destruct (JS.includes (approvalStr (cfg this)) "{user}") eqn:Ha; [|discriminate].
  split.
  - intros prBody owner repo msg He.
    assert (Hf : JS.includes (referenceStr (cfg this)) "{url}" = false)
      by (apply (type_error_cases prBody _ owner repo); eauto).
    congruence.
  - intros Hu. unfold expected, JS.replace. unfold JS.includes in Ha.
    destruct (JS.indexOf "{user}" (approvalStr (cfg this))) as [i|]; [|discriminate].
    cbv zeta. rewrite getSubstitution_plain.
    + eexists _, _. reflexivity.
    + unfold JS.includes in Hu. cbn [append JS.indexOf prefix].
      destruct (ascii_dec "$" "@"); [discriminate|].
      now destruct (JS.indexOf "$" (prUser this)).
Qed.

Lemma validated_config_is_usable_witness :
  substring_of ("@" ++ "bob") (expected (bob_pr valid_body)).
Proof.
  apply (validated_config_is_usable (bob_pr valid_body)); reflexivity.
Defined.

(** X7. [run] talks to the server only when everything before the checker
    is in place: the event path is set, the event has a pull request, the
    token is given, the author is not the owner, and both templates, the
    inputs or else the defaults, have their placeholder. *)
Theorem run_requests_only_when_set_up (remote : Api) (env : Env) (fuel : nat) :
  filter is_fetch (trace (run remote env fuel)) <> [] ->
  exists path pr,
    GITHUB_EVENT_PATH env = Some path /\ path <> "" /\
    read_event env path = inr (Some pr) /\
    getInput env "github_token" <> "" /\
    JS.toLowerCase (base_repo_owner_login pr) <> JS.toLowerCase (user_login pr) /\
    JS.includes (or_else (getInput env "reference_str") DEFAULT_CONFIG_referenceStr) "{url}"
    = true /\
    JS.includes (or_else (getInput env "approval_str") DEFAULT_CONFIG_approvalStr) "{user}"
    = true.
Proof.
  unfold run.
  destruct (GITHUB_EVENT_PATH env) as [[|c path]|] eqn:Hp; try (intros H; now elim H).
  destruct (read_event env (String c path)) as [err|[pr|]] eqn:He;
    try (intros H; now elim H).
  destruct (String.eqb_spec (getInput env "github_token") "") as [|Ht];
    [intros H; now elim H|].
  destruct (String.eqb_spec (JS.toLowerCase (base_repo_owner_login pr))
              (JS.toLowerCase (user_login pr))) as [|Ho];
    [intros H; now elim H|].
  unfold validateConfig, config_error. cbn [referenceStr approvalStr].
  destruct (JS.includes (or_else (getInput env "reference_str") _) "{url}") eqn:Hr;
    [|intros H; now elim H].
  destruct (JS.includes (or_else (getInput env "approval_str") _) "{user}") eqn:Ha;
    [|intros H; now elim H].
  intros _. exists (String c path), pr. repeat split; auto. discriminate.
Qed.

Lemma run_requests_only_when_set_up_witness :
  exists path pr,
    GITHUB_EVENT_PATH bob_env = Some path /\ path <> "" /\
    read_event bob_env path = inr (Some pr) /\
    getInput bob_env "github_token" <> "" /\
    JS.toLowerCase (base_repo_owner_login pr) <> JS.toLowerCase (user_login pr) /\
    JS.includes (or_else (getInput bob_env "reference_str") DEFAULT_CONFIG_referenceStr)
      "{url}" = true /\
    JS.includes (or_else (getInput bob_env "approval_str") DEFAULT_CONFIG_approvalStr)
      "{user}" = true.
Proof.
  apply (run_requests_only_when_set_up (widgets_api "open" "write") bob_env 0).
  vm_compute. discriminate.
Defined.

(** ** Every way a step of [check] can go *)


Lemma check_unfold (remote : Api) (this : PRApproval) (fuel : nat) :
  result (check remote this fuel)
  = result (step (contributor_step remote this fuel) (fun _ => check_reference remote this)) /\
  exists line,
    trace (check remote this fuel)
    = Info line
        :: trace (step (contributor_step remote this fuel)
                    (fun _ => check_reference remote this)).
Proof.
  unfold check, info, emit, bind at 1. unfold result, trace.
  destruct (step _ _) as [r t]. cbn [fst snd app].
  split; [reflexivity|eexists; reflexivity].
Qed.

Lemma comment_step_cases (remote : Api) (this : PRApproval) (parsed : Parsed) :
  (exists msg, comment_step remote this parsed
               = (Ret (inl (Failed msg)),
                  [Fetch GET (comment_url this parsed) None; SetFailed msg])) \/
  comment_step remote this parsed
  = (Ret (inl (Closed not_found_reason)),
     Fetch GET (comment_url this parsed) None :: trace (_closePR remote this not_found_reason)) \/
  (exists res d,
      issue_comment remote (comment_url this parsed) = Responded res /\
      http_status res = 200 /\ http_json res = Some d /\
      comment_step remote this parsed
      = (Ret (inr d), [Fetch GET (comment_url this parsed) None])).
Proof.
  destruct (issue_comment remote (comment_url this parsed)) as [msg|res] eqn:E.
  { left. destruct (comment_step_offline _ _ _ _ E) as [m ->]. eauto. }
  destruct (Nat.eq_dec (http_status res) 404) as [H404|H404].
  { right; left. apply (comment_step_closed _ _ _ _ E (or_introl H404)). }
  destruct (body_of res) as [d|] eqn:Hd.
  2:{ right; left. apply (comment_step_closed _ _ _ _ E (or_intror Hd)). }
  destruct (Nat.eq_dec (http_status res) 200) as [H200|H200].
  2:{ left. eexists. apply (comment_step_failed _ _ _ _ E H404); [congruence|assumption]. }
  right; right. rewrite (body_of_200 res H200) in Hd. exists res, d.
  repeat split; auto. now apply (comment_step_continue _ _ _ _ _ E).
Qed.

Lemma issue_step_cases (remote : Api) (this : PRApproval) (comment : Comment) :
  (exists msg, issue_step remote this comment
               = (Ret (inl (Failed msg)), [Fetch GET (issue_url comment) None; SetFailed msg])) \/
  issue_step remote this comment
  = (Ret (inl (Closed issue_closed_reason)),
     Fetch GET (issue_url comment) None :: trace (_closePR remote this issue_closed_reason)) \/
  (exists res i,
      issue remote (issue_url comment) = Responded res /\
      http_status res = 200 /\ http_json res = Some i /\ issue_state i = "open" /\
      issue_step remote this comment = (Ret (inr tt), [Fetch GET (issue_url comment) None])).
Proof.
  destruct (issue remote (issue_url comment)) as [msg|res] eqn:E.
  { left. unfold issue_step, _get, _request. rewrite E. eexists. reflexivity. }
  destruct (Nat.eq_dec (http_status res) 200) as [H200|H200].
  2:{ left. eexists. apply (issue_step_failed _ this _ _ E (or_introl H200)). }
  destruct (http_json res) as [i|] eqn:Hd.
  2:{ left. eexists. apply (issue_step_failed _ this _ _ E). right. now rewrite body_of_200. }
  destruct (String.eqb_spec (issue_state i) "open") as [Hs|Hs].
  2:{ right; left. apply (issue_step_closed _ this _ _ _ E H200 Hd Hs). }
  right; right. exists res, i. repeat split; auto.
  unfold issue_step, _get, _request. rewrite E.
  unfold emit, bind at 1 2. unfold ret at 1. cbn [status data].
  rewrite (body_of_200 res H200), H200, Hd, Hs. reflexivity.
Qed.

Lemma permission_step_cases (remote : Api) (this : PRApproval) (approver : string) :
  (exists msg, permission_step remote this approver
               = (Ret (inl (Failed msg)),
                  [Fetch GET (permission_url this approver) None; SetFailed msg])) \/
  permission_step remote this approver
  = (Ret (inl (Closed (permission_reason approver))),
     Fetch GET (permission_url this approver) None
       :: trace (_closePR remote this (permission_reason approver))) \/
  (exists res d,
      collaborator_permission remote (permission_url this approver) = Responded res /\
      http_status res = 200 /\ http_json res = Some d /\ allowed (permission d) = true /\
      permission_step remote this approver
      = (Ret (inr tt), [Fetch GET (permission_url this approver) None])).
Proof.
  destruct (collaborator_permission remote (permission_url this approver)) as [msg|res] eqn:E.
  { left. unfold permission_url in *. unfold permission_step, _get, _request. rewrite E.
    eexists. reflexivity. }
  destruct (Nat.eq_dec (http_status res) 200) as [H200|H200].
  - destruct (http_json res) as [d|] eqn:Hd.
    + rewrite (permission_step_unfold _ _ _ _ _ E H200 Hd).
      destruct (allowed (permission d)) eqn:Ha; [|right; left; reflexivity].
      right; right. exists res, d. auto.
    + left. unfold permission_url in *. unfold permission_step, _get, _request. rewrite E.
      unfold emit, bind at 1 2. unfold ret at 1. cbn [status data].
      rewrite (body_of_200 res H200), H200, Hd. eexists. reflexivity.
  - left. unfold permission_url in *. unfold permission_step, _get, _request. rewrite E.
    unfold emit, bind at 1 2. unfold ret at 1. cbn [status data].
    destruct (Nat.eqb_spec (http_status res) 200); [contradiction|].
    destruct (body_of res); eexists; reflexivity.
Qed.

Lemma approver_step_cases (comment : Comment) :
  (exists msg, approver_step comment = (Ret (inl (Failed msg)), [SetFailed msg])) \/
  (exists approver,
      comment_user_login comment = Some approver /\ approver <> "" /\
      approver_step comment = (Ret (inr approver), [])).
Proof.
  unfold approver_step.
  destruct (comment_user_login comment) as [[|c a]|].
  - left. eexists. reflexivity.
  - right. exists (String c a). repeat split. discriminate.
  - left. eexists. reflexivity.
Qed.

Lemma extract_step_cases (this : PRApproval) :
  (exists msg, extract_step this = (Ret (inl (Failed msg)), [SetFailed msg])) \/
  (exists parsed line,
      extractCommentURL (prBody this) (referenceStr (cfg this)) (owner this) (repo this)
      = inr parsed /\
      extract_step this = (Ret (inr parsed), [Info line])).
Proof.
  unfold extract_step.
  destruct (extractCommentURL _ _ _ _) as [err|parsed].
  - left. eexists. reflexivity.
  - right. exists parsed. eexists. split; reflexivity.
Qed.

Lemma contributor_step_cases (remote : Api) (this : PRApproval) (fuel : nat) :
  (excludeContribs (cfg this) = false /\
   contributor_step remote this fuel = (Ret (inr tt), [])) \/
  (excludeContribs (cfg this) = true /\
   exists line0,
     match result (_isContributor remote this fuel) with
     | Ret true =>
         exists line, contributor_step remote this fuel
                      = (Ret (inl (Skipped PastContributor)),
                         Info line0 :: trace (_isContributor remote this fuel) ++ [Info line])
     | Ret false =>
         exists line, contributor_step remote this fuel
                      = (Ret (inr tt),
                         Info line0 :: trace (_isContributor remote this fuel) ++ [Info line])
     | Throw e =>
         contributor_step remote this fuel
         = (Ret (inl (Failed ("error checking contributors: " ++ e))),
            Info line0 :: trace (_isContributor remote this fuel)
              ++ [SetFailed ("error checking contributors: " ++ e)])
     | Running =>
         contributor_step remote this fuel
         = (Running, Info line0 :: trace (_isContributor remote this fuel))
     end).
Proof.
  unfold contributor_step.
  destruct (excludeContribs (cfg this)); [right|left; auto].
  split; [reflexivity|]. eexists.
  unfold result, trace.
  destruct (_isContributor remote this fuel) as [[[|]|e|] t]; cbn [fst snd];
    try (eexists; reflexivity); reflexivity.
Qed.

(** ** Outcomes of [check] *)

(** X8. Whatever the server answers, the way [check] ends and what it
    did agree: it ends Failed only after [core.setFailed] with that
    message and without having posted a comment or asked for a close;
    it ends Closed only after asking for the explanatory comment with
    that reason, and then never calls [core.setFailed]; and it ends
    Approved or Skipped without any of these. *)
Theorem check_outcome_effects (remote : Api) (this : PRApproval) (fuel : nat) :
  let t := trace (check remote this fuel) in
  (forall msg, result (check remote this fuel) = Ret (Failed msg) ->
     In (SetFailed msg) t /\ untouched t) /\
  (forall reason, result (check remote this fuel) = Ret (Closed reason) ->
     In (autoclose_comment this reason) t /\ unreported t) /\
  (result (check remote this fuel) = Ret Approved -> untouched t /\ unreported t) /\
  (forall why, result (check remote this fuel) = Ret (Skipped why) ->
     untouched t /\ unreported t).
Proof.
  cbv zeta. pose proof (check_tagged remote this fuel) as H.
  repeat split; intros; match goal with
                        | E : result _ = _ |- _ => rewrite E in H; apply H
                        end.
Qed.

Lemma check_outcome_effects_witness :
  In (autoclose_comment (bob_pr valid_body) (permission_reason "carol"))
     (trace (check (widgets_api "open" "read") (bob_pr valid_body) 0)) /\
  unreported (trace (check (widgets_api "open" "read") (bob_pr valid_body) 0)).
Proof.
  apply (proj1 (proj2 (check_outcome_effects (widgets_api "open" "read")
                         (bob_pr valid_body) 0))).
  vm_compute. reflexivity.
Defined.














Lemma failed_reported (remote : Api) (this : PRApproval) (fuel : nat) (msg : string) :
  result (check remote this fuel) = Ret (Failed msg) ->
  In (SetFailed msg) (trace (check remote this fuel)) /\
  untouched (trace (check remote this fuel)).
Proof.
  intros H. pose proof (check_tagged remote this fuel) as Ht. rewrite H in Ht. exact Ht.
Qed.

(** X12. A request that fails in transport is reported, not taken for a
    violation: when the fetch of the comment, of its issue or of the
    approver's permission throws, [check] ends Failed with the message of
    its catch block around [_request]'s "error calling GitHub API: ...",
    calls [core.setFailed] with that message, and neither posts nor
    closes. *)
Theorem transport_failures_reported (remote : Api) (this : PRApproval) (fuel : nat)
    (parsed : Parsed) (msg : string) :
  passed (contributor_step remote this fuel) tt ->
  passed (extract_step this) parsed ->
  (issue_comment remote (comment_url this parsed) = NetworkError msg ->
   result (check remote this fuel)
   = Ret (Failed ("error fetching comment: error calling GitHub API: " ++ msg)) /\
   In (SetFailed ("error fetching comment: error calling GitHub API: " ++ msg))
      (trace (check remote this fuel)) /\
   untouched (trace (check remote this fuel))) /\
  (forall comment,
     passed (comment_step remote this parsed) comment ->
     (issue remote (issue_url comment) = NetworkError msg ->
      result (check remote this fuel)
      = Ret (Failed ("error checking issue state: error calling GitHub API: " ++ msg)) /\
      In (SetFailed ("error checking issue state: error calling GitHub API: " ++ msg))
         (trace (check remote this fuel)) /\
      untouched (trace (check remote this fuel))) /\
     (forall approver,
        passed (issue_step remote this comment) tt ->
        passed (phrase_step remote this comment) tt ->
        passed (approver_step comment) approver ->
        collaborator_permission remote (permission_url this approver) = NetworkError msg ->
        result (check remote this fuel)
        = Ret (Failed ("error checking approver permissions: error calling GitHub API: "
                         ++ msg)) /\
        In (SetFailed ("error checking approver permissions: error calling GitHub API: "
                         ++ msg))
           (trace (check remote this fuel)) /\
        untouched (trace (check remote this fuel)))).
Proof.
  intros H1 H2. split; [|intros comment H3; split].
  - intros E.
    pose proof (reach_comment remote this fuel parsed H1 H2) as Hreach.
    unfold from_comment in Hreach.
    assert (Hs : result (comment_step remote this parsed)
                 = Ret (inl (Failed ("error fetching comment: error calling GitHub API: "
                                       ++ msg)))).
    { unfold comment_url in E. unfold comment_step, _get, _request. rewrite E. reflexivity. }
    destruct (reaches_returned _ _ _ _ Hreach Hs) as (Hr & _).
    split; [exact Hr|]. exact (failed_reported _ _ _ _ Hr).
  - intros E.
    pose proof (reach_issue remote this fuel parsed comment H1 H2 H3) as Hreach.
    unfold from_issue in Hreach.
    assert (Hs : result (issue_step remote this comment)
                 = Ret (inl (Failed ("error checking issue state: error calling GitHub API: "
                                       ++ msg)))).
    { unfold issue_step, _get, _request. rewrite E. reflexivity. }
    destruct (reaches_returned _ _ _ _ Hreach Hs) as (Hr & _).
    split; [exact Hr|]. exact (failed_reported _ _ _ _ Hr).
  - intros approver H4 H5 H6 E.
    pose proof (reach_permission remote this fuel parsed comment approver H1 H2 H3 H4 H5 H6)
      as Hreach.
    unfold from_permission in Hreach.
    assert (Hs : result (permission_step remote this approver)
                 = Ret (inl (Failed ("error checking approver permissions: "
                                       ++ "error calling GitHub API: " ++ msg)))).
    { unfold permission_url in E. unfold permission_step, _get, _request. rewrite E.
      reflexivity. }
    destruct (reaches_returned _ _ _ _ Hreach Hs) as (Hr & _).
    split; [exact Hr|]. exact (failed_reported _ _ _ _ Hr).
Qed.

Lemma transport_failures_reported_witness :
  result (check offline_api (bob_pr valid_body) 0)
  = Ret (Failed "error fetching comment: error calling GitHub API: fetch failed") /\
  In (SetFailed "error fetching comment: error calling GitHub API: fetch failed")
     (trace (check offline_api (bob_pr valid_body) 0)) /\
  untouched (trace (check offline_api (bob_pr valid_body) 0)).
Proof.
  apply (proj1 (transport_failures_reported offline_api (bob_pr valid_body) 0
                  valid_parsed "fetch failed" eq_refl
                  ltac:(vm_compute; reflexivity))).
  reflexivity.
Defined.

(** ** One remediation at most *)

Lemma closePR_mutations (remote : Api) (this : PRApproval) (reason : string) :
  filter is_mutation (trace (_closePR remote this reason)) = [autoclose_comment this reason] \/
  filter is_mutation (trace (_closePR remote this reason))
  = [autoclose_comment this reason; close_request this].
Proof.
  rewrite closePR_unfold. unfold trace, autoclose_comment, close_request.
  cbn [snd filter is_mutation].
  destruct (mutate remote POST _ _) as [e1|r1]; [left; reflexivity|].
  right. rewrite filter_app.
  destruct (status_ok (http_status r1));
    destruct (mutate remote PATCH _ _) as [e2|r2]; try reflexivity;
    destruct (status_ok (http_status r2)); reflexivity.
Qed.

Lemma closes_once_compose {A} (remote : Api) (this : PRApproval) (c : M (Outcome + A))
    (k : A -> M Outcome) :
  closes_once remote this c ->
  (forall a, closed_once remote this (k a)) ->
  closed_once remote this (step c k).
Proof.
  unfold closes_once, closed_once. intros Hc Hk.
  destruct c as [[[o|a]| |] t] eqn:E.
  - destruct (step_returned (Ret (inl o), t) k o eq_refl) as [Hr Ht].
    unfold result, trace in *. cbn [fst snd] in *. rewrite Hr, Ht.
    destruct o as [| |reason|msg]; try (left; exact Hc).
    right. destruct Hc as (t0 & -> & Hu). exists reason, t0. auto.
  - destruct (step_passed (Ret (inr a), t) k a eq_refl) as [Hr Ht].
    specialize (Hk a).
    unfold result, trace in *. cbn [fst snd] in *. rewrite Hr, Ht.
    destruct Hk as [Hu|(reason & t0 & Hres & Htr & Hu)].
    + left. apply untouched_app. auto.
    + right. exists reason, (t ++ t0)%list. split; [exact Hres|]. split.
      * now rewrite Htr, app_assoc.
      * apply untouched_app. auto.
  - contradiction.
  - left. exact Hc.
Qed.

Lemma closes_once_here {A} (remote : Api) (this : PRApproval) (reason : string)
    (e : Event) :
  is_mutation e = false ->
  @closes_once A remote this
    (Ret (inl (Closed reason)), e :: trace (_closePR remote this reason)).
Proof.
  intros He. unfold closes_once, result, trace at 1. cbn [fst snd].
  exists [e]. split; [reflexivity|]. unfold untouched. cbn [filter]. now rewrite He.
Qed.

Lemma contributor_step_closes_once (remote : Api) (this : PRApproval) (fuel : nat) :
  closes_once remote this (contributor_step remote this fuel).
Proof.
  pose proof (contributor_step_tagged remote this fuel) as H.
  unfold step_tagged, tagged in H. unfold closes_once.
  destruct (contributor_step_cases remote this fuel) as [[_ E]|[_ [l0 E]]].
  - rewrite E. reflexivity.
  - destruct (result (_isContributor remote this fuel)) as [[|]|e|];
      match type of E with
      | ex _ => destruct E as [l E]
      | _ => idtac
      end; rewrite E in H |- *; unfold result, trace in *; cbn [fst snd] in *; tauto.
Qed.

Lemma extract_step_closes_once (remote : Api) (this : PRApproval) :
  closes_once remote this (extract_step this).
Proof.
  unfold closes_once.
  destruct (extract_step_cases this) as [[msg E]|(pa & l & _ & E)]; rewrite E; reflexivity.
Qed.

Lemma comment_step_closes_once (remote : Api) (this : PRApproval) (parsed : Parsed) :
  closes_once remote this (comment_step remote this parsed).
Proof.
  destruct (comment_step_cases remote this parsed)
    as [[msg E]|[E|(res & d & _ & _ & _ & E)]]; rewrite E;
    [reflexivity|now apply closes_once_here|reflexivity].
Qed.

Lemma issue_step_closes_once (remote : Api) (this : PRApproval) (comment : Comment) :
  closes_once remote this (issue_step remote this comment).
Proof.
  destruct (issue_step_cases remote this comment)
    as [[msg E]|[E|(res & d & _ & _ & _ & _ & E)]]; rewrite E;
    [reflexivity|now apply closes_once_here|reflexivity].
Qed.

Lemma phrase_step_closes_once (remote : Api) (this : PRApproval) (comment : Comment) :
  closes_once remote this (phrase_step remote this comment).
Proof.
  rewrite phrase_step_unfold. destruct (body_includes this comment); [reflexivity|].
  unfold closes_once, result, trace at 1. cbn [fst snd]. exists []. split; reflexivity.
Qed.

Lemma approver_step_closes_once (remote : Api) (this : PRApproval) (comment : Comment) :
  closes_once remote this (approver_step comment).
Proof.
  unfold closes_once.
  destruct (approver_step_cases comment) as [[msg E]|(a & _ & _ & E)]; rewrite E; reflexivity.
Qed.

Lemma permission_step_closes_once (remote : Api) (this : PRApproval) (approver : string) :
  closes_once remote this (permission_step remote this approver).
Proof.
  destruct (permission_step_cases remote this approver)
    as [[msg E]|[E|(res & d & _ & _ & _ & _ & E)]]; rewrite E;
    [reflexivity|now apply closes_once_here|reflexivity].
Qed.

Lemma check_closed_once (remote : Api) (this : PRApproval) (fuel : nat) :
  closed_once remote this (check remote this fuel).
Proof.
  assert (H : closed_once remote this
                (step (contributor_step remote this fuel)
                   (fun _ => check_reference remote this))).
  { apply closes_once_compose; [apply contributor_step_closes_once|]. intros _.
    apply closes_once_compose; [apply extract_step_closes_once|]. intros parsed.
    apply closes_once_compose; [apply comment_step_closes_once|]. intros comment.
    apply closes_once_compose; [apply issue_step_closes_once|]. intros _.
    apply closes_once_compose; [apply phrase_step_closes_once|]. intros _.
    apply closes_once_compose; [apply approver_step_closes_once|]. intros approver.
    apply closes_once_compose; [apply permission_step_closes_once|]. intros _.
    left. reflexivity. }
  destruct (check_unfold remote this fuel) as (Hr & line & Ht).
  unfold closed_once in *. rewrite Hr, Ht.
  destruct H as [Hu|(reason & t0 & Hres & Htr & Hu)].
  - left. exact Hu.
  - right. exists reason, (Info line :: t0). split; [exact Hres|]. split.
    + now rewrite Htr.
    + exact Hu.
Qed.

(** X13. Whatever the server answers, one run of [check] sends no
    comment and no close request, or it ends Closed and has sent exactly
    the explanatory comment for its reason, followed or not by exactly
    one close request: never a close without the comment before it, and
    never two of either. *)
Theorem one_remediation_at_most (remote : Api) (this : PRApproval) (fuel : nat) :
  filter is_mutation (trace (check remote this fuel)) = [] \/
  exists reason,
    result (check remote this fuel) = Ret (Closed reason) /\
    (filter is_mutation (trace (check remote this fuel)) = [autoclose_comment this reason] \/
     filter is_mutation (trace (check remote this fuel))
     = [autoclose_comment this reason; close_request this]).
Proof.
  destruct (check_closed_once remote this fuel) as [Hu|(reason & t0 & Hres & Htr & Hu)].
  - left. exact Hu.
  - right. exists reason. split; [exact Hres|].
    rewrite Htr, filter_app. unfold untouched in Hu. rewrite Hu. cbn [app].
    apply closePR_mutations.
Qed.

(** ** More on the contributor gate *)

Lemma loop_last_page (remote : Api) (this : PRApproval) (fuel page : nat) :
  last_page remote this page ->
  _isContributor_from remote this (S fuel) page = (Ret false, [page_request this page]).
Proof.
  intros (r & d & E & H200 & Hd & Hex & Hl).
  cbn [_isContributor_from]. unfold _get, _request, emit, bind, ret.
  unfold contributors_url in E. rewrite E. cbn [status data link].
  rewrite (body_of_200 r H200), H200, Hd, Hex, Hl. reflexivity.
Qed.

Lemma loop_offline (remote : Api) (this : PRApproval) (fuel page : nat) (msg : string) :
  contributors remote (contributors_url this page) = NetworkError msg ->
  _isContributor_from remote this (S fuel) page
  = (Throw ("error calling GitHub API: " ++ msg), [page_request this page]).
Proof.
  intros E. cbn [_isContributor_from]. unfold _get, _request, emit, bind, throw.
  unfold contributors_url in E. rewrite E. reflexivity.
Qed.

Lemma loop_false_inv (remote : Api) (this : PRApproval) (fuel : nat) :
  forall page,
    result (_isContributor_from remote this fuel page) = Ret false ->
    exists n, (forall q, page <= q -> q < page + n -> advances remote this q)
              /\ (unusable remote this (page + n) \/ last_page remote this (page + n)).
Proof.
  induction fuel as [|fuel IH]; intros page H; [discriminate|].
  destruct (loop_step remote this fuel page) as [[Ha E]|[[_ E]|[[Hf _]|(msg & _ & E)]]].
  - rewrite E in H. unfold result in H at 1. cbn [fst] in H.
    destruct (IH _ H) as (n & Hn & Hf).
    exists (S n). rewrite <- Nat.add_succ_comm. split; [|assumption].
    intros q H1 H2. destruct (Nat.eq_dec q page) as [->|]; [assumption|].
    apply Hn; lia.
  - rewrite E in H. discriminate.
  - exists 0. rewrite Nat.add_0_r. split; [intros; lia|assumption].
  - rewrite E in H. discriminate.
Qed.

Lemma loop_throw_inv (remote : Api) (this : PRApproval) (fuel : nat) (e : string) :
  forall page,
    result (_isContributor_from remote this fuel page) = Throw e ->
    exists n msg,
      (forall q, page <= q -> q < page + n -> advances remote this q) /\
      contributors remote (contributors_url this (page + n)) = NetworkError msg /\
      e = "error calling GitHub API: " ++ msg.
Proof.
  induction fuel as [|fuel IH]; intros page H; [discriminate|].
  destruct (loop_step remote this fuel page) as [[Ha E]|[[_ E]|[[_ E]|(msg & Hm & E)]]].
  - rewrite E in H. unfold result in H at 1. cbn [fst] in H.
    destruct (IH _ H) as (n & msg & Hn & Hf).
    exists (S n), msg. rewrite <- Nat.add_succ_comm. split; [|assumption].
    intros q H1 H2. destruct (Nat.eq_dec q page) as [->|]; [assumption|].
    apply Hn; lia.
  - rewrite E in H. discriminate.
  - rewrite E in H. discriminate.
  - rewrite E in H. injection H as <-.
    exists 0, msg. rewrite Nat.add_0_r. split; [intros; lia|auto].
Qed.

(** X14. The contributor gate returns false exactly when the loop gets
    to a page that answers with another status than 200 or without data,
    or to a page without the author and without [rel="next"] in its link
    header; and it throws exactly when the loop gets to a page whose
    request fails in transport, with [_request]'s message. *)
Theorem gate_false_or_throws (remote : Api) (this : PRApproval) :
  ((exists fuel, result (_isContributor remote this fuel) = Ret false) <->
   (exists p, 1 <= p /\ scanned remote this p /\
              (unusable remote this p \/ last_page remote this p))) /\
  (forall e,
     (exists fuel, result (_isContributor remote this fuel) = Throw e) <->
     (exists p msg, 1 <= p /\ scanned remote this p /\
                    contributors remote (contributors_url this p) = NetworkError msg /\
                    e = "error calling GitHub API: " ++ msg)).
Proof.
  split; [split|intros e; split].
  - intros [fuel H]. apply loop_false_inv in H. destruct H as (n & Hn & Hend).
    exists (1 + n). split; [lia|]. split; [|exact Hend].
    intros q H1 H2. apply Hn; lia.
  - intros (p & Hp & Hs & Hend). exists p.
    rewrite (gate_reaches remote this p p Hp Hs (le_n p)).
    destruct Hend as [Hu|Hl]; [rewrite loop_unusable|rewrite loop_last_page];
      auto.
  - intros [fuel H]. apply loop_throw_inv in H. destruct H as (n & msg & Hn & E & ->).
    exists (1 + n), msg. split; [lia|]. split; [|auto].
    intros q H1 H2. apply Hn; lia.
  - intros (p & msg & Hp & Hs & E & ->). exists p.
    rewrite (gate_reaches remote this p p Hp Hs (le_n p)).
    now rewrite (loop_offline _ _ _ _ msg E).
Qed.

Lemma loop_trace (remote : Api) (this : PRApproval) (fuel : nat) :
  forall page, exists n,
    n <= fuel /\
    trace (_isContributor_from remote this fuel page) = map (page_request this) (seq page n).
Proof.
  induction fuel as [|fuel IH]; intros page; [exists 0; auto|].
  destruct (loop_step remote this fuel page) as [[_ E]|[[_ E]|[[_ E]|(msg & _ & E)]]];
    rewrite E; try (exists 1; split; [lia|reflexivity]).
  destruct (IH (S page)) as (n & Hn & Ht).
  exists (S n). split; [lia|]. unfold trace at 1. cbn [snd seq map]. now rewrite Ht.
Qed.

Lemma gate_requests_page_trace (remote : Api) (this : PRApproval) (fuel : nat) :
  exists n, n <= fuel /\ trace (_isContributor remote this fuel) = page_requests this n.
Proof. apply loop_trace. Qed.

(** X15. Whatever the server answers and however long the gate is left
    to run, the requests of [_isContributor] are those for pages 1, 2, 3
    and so on, in this order, each once, and nothing else. *)
Theorem gate_requests_pages_in_order (remote : Api) (this : PRApproval) (fuel : nat) :
  exists n, n <= fuel /\ trace (_isContributor remote this fuel) = page_requests this n.
Proof. apply gate_requests_page_trace. Qed.

Lemma filter_fetch_pages (this : PRApproval) (l : list nat) :
  filter is_fetch (map (page_request this) l) = map (page_request this) l.
Proof. induction l as [|q l IH]; cbn; [reflexivity|now rewrite IH]. Qed.



(** X17. With the contributor exclusion on, when the gate finds the
    author [check] ends Skipped and has requested contributor pages only:
    neither the comment, nor the issue, nor the permission is asked for,
    and nothing is posted or closed. *)
Theorem contributor_is_exempt (remote : Api) (this : PRApproval) (fuel : nat) :
  excludeContribs (cfg this) = true ->
  result (_isContributor remote this fuel) = Ret true ->
  result (check remote this fuel) = Ret (Skipped PastContributor) /\
  exists n, n <= fuel /\
            filter is_fetch (trace (check remote this fuel)) = page_requests this n.
Proof.
  intros Hx Hg.
  destruct (check_unfold remote this fuel) as (Hr & line & Ht).
  destruct (contributor_step_cases remote this fuel) as [[Hoff _]|[_ [l0 Hc]]];
    [congruence|].
  rewrite Hg in Hc. destruct Hc as [l Hc].
  destruct (step_returned _ (fun _ => check_reference remote this) _ (f_equal fst Hc))
    as [Hr' Ht'].
  rewrite Hr, Ht, Hr', Ht', Hc. split; [reflexivity|].
  destruct (gate_requests_page_trace remote this fuel) as (n & Hn & Hpages).
  exists n. split; [exact Hn|].
  unfold trace in *. cbn [snd filter is_fetch].
  rewrite filter_app, Hpages. unfold page_requests.
  rewrite filter_fetch_pages. cbn [filter is_fetch]. apply app_nil_r.
Qed.

Lemma contributor_is_exempt_witness :
  result (check roster_api excluding_pr 5) = Ret (Skipped PastContributor) /\
  exists n, n <= 5 /\
            filter is_fetch (trace (check roster_api excluding_pr 5))
            = page_requests excluding_pr n.
Proof.
  apply (contributor_is_exempt roster_api excluding_pr 5); vm_compute; reflexivity.
Defined.
